(** * Minimum-cost completion of a partial transducer (main.py)

    A shallow embedding of [solve] and of its inner search [dfs], with the
    properties of the search that the design document states. *)

From stdpp Require Import gmap strings pretty list fin_maps sorting.

Local Open Scope string_scope.
Local Open Scope list_scope.
Local Open Scope nat_scope.

(** ** The transducer model *)

(** [DEFINED_TRANSITIONS]: node -> (two-bit input -> (destination, output)). *)
Definition DEFINED_TRANSITIONS : gmap string (gmap string (string * string)) :=
  list_to_map
    [ ("S0", list_to_map [("01", ("S1", "1")); ("11", ("S1", "0")); ("10", ("S2", "0"))]);
      ("S1", list_to_map [("01", ("S3", "1"))]);
      ("S2", list_to_map [("00", ("S3", "1")); ("11", ("S1", "0")); ("10", ("S3", "0"))]);
      ("S3", list_to_map [("01", ("S0", "1"))]) ].

(** [INITIAL_NODES = set(DEFINED_TRANSITIONS.keys())]. *)
Definition INITIAL_NODES : gset string := dom DEFINED_TRANSITIONS.

(** [DEFINED_TRANSITIONS[node][inp]], guarded by
    [node in DEFINED_TRANSITIONS and inp in DEFINED_TRANSITIONS[node]]. *)
Definition defined_lookup (node inp : string) : option (string * string) :=
  DEFINED_TRANSITIONS !! node ≫= λ row, row !! inp.

(** ** Search data *)

(** The dictionary of extra transitions, [(node, inp) -> (dest, req_out)].
    It travels between calls as [frozenset(d.items())], which compares by
    content; so does a [gmap]. *)
Abbreviation extmap := (gmap (string * string) (string * string)).

(** One entry of the path:
    [(current_node, input, required_output, destination, extra, new_node)]. *)
Record path_entry := PathEntry {
  pe_from : string;
  pe_inp : string;
  pe_out : string;
  pe_dest : string;
  pe_extra : bool;
  pe_new : bool
}.

(** What [dfs] returns: [(cost, path, extra_transitions, new_node_count_final)]. *)
Record dfs_result := DfsResult {
  r_cost : nat;
  r_path : list path_entry;
  r_et : extmap;
  r_new : nat
}.

(** [best = candidate if best is None or candidate[0] < best[0] else best] *)
Definition keep_best (best : option dfs_result) (candidate : dfs_result)
  : option dfs_result :=
  match best with
  | None => Some candidate
  | Some b => if decide (r_cost candidate < r_cost b) then Some candidate else Some b
  end.

(** The candidate built from the result [res] of the recursive call: [extra_cost]
    more than it, with the step taken put in front of its path. *)
Definition candidate_of (extra_cost : nat) (e : path_entry) (res : dfs_result)
  : dfs_result :=
  DfsResult (extra_cost + r_cost res) (e :: r_path res) (r_et res) (r_new res).

(** [if res is not None: ... best = ...] *)
Definition consider (best : option dfs_result) (extra_cost : nat) (e : path_entry)
    (res : option dfs_result) : option dfs_result :=
  match res with
  | Some r => keep_best best (candidate_of extra_cost e r)
  | None => best
  end.

(** The nodes that exist: the initial ones and every destination of an extra
    transition. *)
Definition available_nodes (extra_transitions : extmap) : gset string :=
  map_fold (λ _ v acc, {[ v.1 ]} ∪ acc) INITIAL_NODES extra_transitions.

(** ["N" + str(new_node_count + 1)] *)
Definition new_node_label (new_node_count : nat) : string :=
  "N" +:+ pretty (new_node_count + 1).

(** [steps = [(s[3*i:3*i+2], s[3*i+2]) for i in range(n)]] *)
Definition steps_of (binary_string : string) : list (string * string) :=
  (λ i, (String.substring (3 * i) 2 binary_string, String.substring (3 * i + 2) 1 binary_string))
    <$> seq 0 (String.length binary_string / 3).

(** The arguments of a call of [dfs], and the cache of [lru_cache] over them. *)
Abbreviation search_node := (nat * string * extmap * nat)%type.
Abbreviation memo := (gmap search_node (option dfs_result)).

(** What [solve] prints. *)
Record report := Report {
  extra_cost : nat;
  extra_path : nat;
  extra_node : nat;
  best_path : list path_entry;
  extra_transitions_used : extmap;
  start_node : string
}.

(** How a call of [solve] ends: it raises [ValueError], prints
    ["No valid path found."], or prints a report. *)
Inductive outcome :=
| ValueError (msg : string)
| NoValidPath
| Solved (r : report).

Section Search.

(** The order in which a [for] loop visits a Python [set] is that of its
    hash table, which the hashes of the labels decide: some enumeration of
    the elements, fixed for one run and unknown otherwise. The search is
    defined for any such order; what holds of it below holds for all of
    them. *)
Variable iter_set : gset string → list string.

(** [dfs], by recursion on the steps still to process: [rest] is
    [steps[i:]], so that [i == len(steps)] is [rest = []], [steps[i]] its head
    and [i + 1] its tail. *)
Fixpoint dfs_from (rest : list (string * string)) (current_node : string)
    (extra_transitions : extmap) (new_node_count : nat) : option dfs_result :=
  match rest with
  | [] => Some (DfsResult 0 [] extra_transitions new_node_count)
  | (inp, req_out) :: rest' =>
    let best : option dfs_result := None in
    (* a pre-defined transition, if available *)
    let best :=
      match defined_lookup current_node inp with
      | Some (dest, out) =>
        if decide (out = req_out) then
          consider best 0 (PathEntry current_node inp req_out dest false false)
            (dfs_from rest' dest extra_transitions new_node_count)
        else best
      | None => best
      end in
    (* an extra transition that was already added *)
    let best :=
      match extra_transitions !! (current_node, inp) with
      | Some (dest, stored_out) =>
        if decide (stored_out = req_out) then
          consider best 0 (PathEntry current_node inp req_out dest false false)
            (dfs_from rest' dest extra_transitions new_node_count)
        else best
      | None => best
      end in
    (* otherwise add an extra transition *)
    if decide (defined_lookup current_node inp = None
               ∧ extra_transitions !! (current_node, inp) = None) then
      (* Option 1: to one of the available nodes *)
      let best :=
        foldl (λ best dest,
                 consider best 1 (PathEntry current_node inp req_out dest true false)
                   (dfs_from rest' dest
                      (<[(current_node, inp) := (dest, req_out)]> extra_transitions)
                      new_node_count))
              best (iter_set (available_nodes extra_transitions)) in
      (* Option 2: to a new node *)
      let label := new_node_label new_node_count in
      consider best (1 + 1) (PathEntry current_node inp req_out label true true)
        (dfs_from rest' label
           (<[(current_node, inp) := (label, req_out)]> extra_transitions)
           (new_node_count + 1))
    else best
  end.

(** [dfs(i, current_node, extra_transitions_state, new_node_count)] for the
    steps of one call of [solve]. *)
Definition dfs (steps : list (string * string)) (i : nat) (current_node : string)
    (extra_transitions_state : extmap) (new_node_count : nat) : option dfs_result :=
  dfs_from (drop i steps) current_node extra_transitions_state new_node_count.

(** [best_overall], a result of [dfs] with its start node. *)
Definition start_loop (steps : list (string * string))
  : option (dfs_result * string) :=
  foldl (λ best_overall start,
           match dfs steps 0 start ∅ 0 with
           | Some res =>
             match best_overall with
             | None => Some (res, start)
             | Some (b, _) =>
               if decide (r_cost res < r_cost b) then Some (res, start)
               else best_overall
             end
           | None => best_overall
           end)
        None (iter_set INITIAL_NODES).

Definition solve (binary_string : string) : outcome :=
  if decide (String.length binary_string `mod` 3 ≠ 0) then
    ValueError "Input length must be a multiple of 3"
  else
    match start_loop (steps_of binary_string) with
    | None => NoValidPath
    | Some (res, start) =>
      Solved (Report (r_cost res)
                     (length (filter (λ e, pe_extra e = true) (r_path res)))
                     (r_new res) (r_path res) (r_et res) start)
    end.

(** The recursive calls of [dfs] at one step, in the order in which the body
    makes them: each is the step put on the path, what it adds to the cost,
    and the extra transitions and node count passed on. *)
Record move := Move {
  m_cost : nat;
  m_entry : path_entry;
  m_ext : extmap;
  m_count : nat
}.

Definition moves (step : string * string) (current_node : string)
    (extra_transitions : extmap) (new_node_count : nat) : list move :=
  let '(inp, req_out) := step in
  match defined_lookup current_node inp with
  | Some (dest, out) =>
    if decide (out = req_out) then
      [Move 0 (PathEntry current_node inp req_out dest false false)
         extra_transitions new_node_count]
    else []
  | None => []
  end ++
  match extra_transitions !! (current_node, inp) with
  | Some (dest, stored_out) =>
    if decide (stored_out = req_out) then
      [Move 0 (PathEntry current_node inp req_out dest false false)
         extra_transitions new_node_count]
    else []
  | None => []
  end ++
  if decide (defined_lookup current_node inp = None
             ∧ extra_transitions !! (current_node, inp) = None) then
    ((λ dest, Move 1 (PathEntry current_node inp req_out dest true false)
                (<[(current_node, inp) := (dest, req_out)]> extra_transitions)
                new_node_count)
       <$> iter_set (available_nodes extra_transitions)) ++
    [Move (1 + 1)
       (PathEntry current_node inp req_out (new_node_label new_node_count) true true)
       (<[(current_node, inp) := (new_node_label new_node_count, req_out)]>
          extra_transitions)
       (new_node_count + 1)]
  else [].

(** What the body makes of the call [m]: the candidate, when the call returns
    a result. *)
Definition candidate (rest : list (string * string)) (m : move)
  : option dfs_result :=
  candidate_of (m_cost m) (m_entry m)
    <$> dfs_from rest (pe_dest (m_entry m)) (m_ext m) (m_count m).

(** The search nodes that one call of [solve] on [steps] reaches: the calls
    made from the loop over the start nodes, and the recursive calls. *)
Inductive visited (steps : list (string * string))
  : list (string * string) → string → extmap → nat → Prop :=
| visited_start start :
    start ∈ iter_set INITIAL_NODES →
    visited steps steps start ∅ 0
| visited_call step rest node ext count m :
    visited steps (step :: rest) node ext count →
    m ∈ moves step node ext count →
    visited steps rest (pe_dest (m_entry m)) (m_ext m) (m_count m).

(** *** The search with its cache

    [@lru_cache(maxsize=None)] keeps every result of [dfs] under the arguments
    of the call, [(i, current_node, extra_transitions_state, new_node_count)];
    a call looks its arguments up first and runs the body only when they are
    not there. [dfs] is defined inside [solve], so each call of [solve] starts
    with an empty cache. *)
Definition dfs_cached_step (call : string → extmap → nat → memo → option dfs_result * memo)
    (extra_cost : nat) (e : path_entry) (extra_transitions : extmap)
    (new_node_count : nat) (st : option dfs_result * memo)
  : option dfs_result * memo :=
  let '(res, cache) := call (pe_dest e) extra_transitions new_node_count st.2 in
  (consider st.1 extra_cost e res, cache).

Fixpoint dfs_cached (rest : list (string * string)) (i : nat) (current_node : string)
    (extra_transitions : extmap) (new_node_count : nat) (cache : memo)
  : option dfs_result * memo :=
  match cache !! (i, current_node, extra_transitions, new_node_count) with
  | Some res => (res, cache)
  | None =>
    let '(res, cache) :=
      match rest with
      | [] => (Some (DfsResult 0 [] extra_transitions new_node_count), cache)
      | (inp, req_out) :: rest' =>
        let call := dfs_cached rest' (i + 1) in
        let st : option dfs_result * memo := (None, cache) in
        let st :=
          match defined_lookup current_node inp with
          | Some (dest, out) =>
            if decide (out = req_out) then
              dfs_cached_step call 0
                (PathEntry current_node inp req_out dest false false)
                extra_transitions new_node_count st
            else st
          | None => st
          end in
        let st :=
          match extra_transitions !! (current_node, inp) with
          | Some (dest, stored_out) =>
            if decide (stored_out = req_out) then
              dfs_cached_step call 0
                (PathEntry current_node inp req_out dest false false)
                extra_transitions new_node_count st
            else st
          | None => st
          end in
        if decide (defined_lookup current_node inp = None
                   ∧ extra_transitions !! (current_node, inp) = None) then
          let st :=
            foldl (λ st dest,
                     dfs_cached_step call 1
                       (PathEntry current_node inp req_out dest true false)
                       (<[(current_node, inp) := (dest, req_out)]> extra_transitions)
                       new_node_count st)
                  st (iter_set (available_nodes extra_transitions)) in
          let label := new_node_label new_node_count in
          dfs_cached_step call (1 + 1)
            (PathEntry current_node inp req_out label true true)
            (<[(current_node, inp) := (label, req_out)]> extra_transitions)
            (new_node_count + 1) st
        else st
      end in
    (res, <[(i, current_node, extra_transitions, new_node_count) := res]> cache)
  end.

Definition start_loop_cached (steps : list (string * string))
  : option (dfs_result * string) * memo :=
  foldl (λ '(best_overall, cache) start,
           let '(res, cache) := dfs_cached steps 0 start ∅ 0 cache in
           (match res with
            | Some res =>
              match best_overall with
              | None => Some (res, start)
              | Some (b, _) =>
                if decide (r_cost res < r_cost b) then Some (res, start)
                else best_overall
              end
            | None => best_overall
            end, cache))
        (None, ∅) (iter_set INITIAL_NODES).

Definition solve_cached (binary_string : string) : outcome :=
  if decide (String.length binary_string `mod` 3 ≠ 0) then
    ValueError "Input length must be a multiple of 3"
  else
    match (start_loop_cached (steps_of binary_string)).1 with
    | None => NoValidPath
    | Some (res, start) =>
      Solved (Report (r_cost res)
                     (length (filter (λ e, pe_extra e = true) (r_path res)))
                     (r_new res) (r_path res) (r_et res) start)
    end.

End Search.

(** Two enumeration orders: by label, upwards and downwards. *)
Definition label_le (a b : string) : Prop := String.leb a b = true.

#[global] Instance label_le_dec : RelDecision label_le.
Proof. intros a b. unfold label_le. apply _. Defined.

Definition ascending (X : gset string) : list string :=
  merge_sort label_le (elements X).

Definition descending (X : gset string) : list string :=
  reverse (ascending X).


(** A worked example: on ["000010"], visiting sets by label upwards, [solve]
    starts at [S0] and adds two transitions, [S0 --(00/0)--> S2] and
    [S2 --(01/0)--> S0]. *)
Definition example_report : report :=
  Report 2 2 0
    [ PathEntry "S0" "00" "0" "S2" true false;
      PathEntry "S2" "01" "0" "S0" true false ]
    (<[("S0", "00") := ("S2", "0")]> (<[("S2", "01") := ("S0", "0")]> ∅))
    "S0".

(** ** Invariants of the search *)

(** No extra transition is on a key of the predefined table. *)
Definition ext_fresh (ext : extmap) : Prop :=
  ∀ key t, ext !! key = Some t → defined_lookup key.1 key.2 = None.

(** The nodes that exist once [count] nodes have been created. *)
Definition known (count : nat) (node : string) : Prop :=
  node ∈ INITIAL_NODES ∨ ∃ j, j < count ∧ node = new_node_label j.

(** The current node and both ends of every extra transition exist. *)
Definition nodes_known (node : string) (ext : extmap) (count : nat) : Prop :=
  known count node
  ∧ ∀ key t, ext !! key = Some t → known count key.1 ∧ known count t.1.

(** Every result in the cache is what [dfs] returns on the arguments it is
    kept under. *)
Definition cache_sound (iter_set : gset string → list string)
    (steps : list (string * string)) (cache : memo) : Prop :=
  ∀ i node ext count res,
    cache !! (i, node, ext, count) = Some res →
    res = dfs iter_set steps i node ext count.

(** Each entry of a path starts where the one before it ends. *)
Fixpoint chained (node : string) (path : list path_entry) : Prop :=
  match path with
  | [] => True
  | e :: path' => pe_from e = node ∧ chained (pe_dest e) path'
  end.

(** ** The completions of the design document

    Section 4.2, in its words: a legal completion processes the steps in order
    from a current state, an ExtensionSet and a counter of synthesized
    states, each step by one of four rules. *)
Inductive completion
  : list (string * string) → string → extmap → nat →
    list path_entry → extmap → nat → Prop :=
| completion_end state ext count :
    completion [] state ext count [] ext count
| completion_predefined inp out rest state ext count dest path ext' count' :
    defined_lookup state inp = Some (dest, out) →
    completion rest dest ext count path ext' count' →
    completion ((inp, out) :: rest) state ext count
      (PathEntry state inp out dest false false :: path) ext' count'
| completion_reused inp out rest state ext count dest path ext' count' :
    ext !! (state, inp) = Some (dest, out) →
    completion rest dest ext count path ext' count' →
    completion ((inp, out) :: rest) state ext count
      (PathEntry state inp out dest false false :: path) ext' count'
| completion_new_extension inp out rest state ext count dest path ext' count' :
    defined_lookup state inp = None →
    ext !! (state, inp) = None →
    (dest ∈ INITIAL_NODES ∨ ∃ key o, ext !! key = Some (dest, o)) →
    completion rest dest (<[(state, inp) := (dest, out)]> ext) count path ext' count' →
    completion ((inp, out) :: rest) state ext count
      (PathEntry state inp out dest true false :: path) ext' count'
| completion_new_state inp out rest state ext count path ext' count' :
    defined_lookup state inp = None →
    ext !! (state, inp) = None →
    completion rest (new_node_label count)
      (<[(state, inp) := (new_node_label count, out)]> ext) (count + 1)
      path ext' count' →
    completion ((inp, out) :: rest) state ext count
      (PathEntry state inp out (new_node_label count) true true :: path) ext' count'.

(** Added transitions, synthesized states, and the cost of a path: the one
    plus the other. *)
Definition added_transitions (path : list path_entry) : nat :=
  length (filter (λ e, pe_extra e = true) path).

Definition synthesized_states (path : list path_entry) : nat :=
  length (filter (λ e, pe_new e = true) path).

Definition path_cost (path : list path_entry) : nat :=
  added_transitions path + synthesized_states path.

(** ** Replaying a path

    The transducer that [solve] returns: the predefined table extended by the
    extra transitions. *)
Definition extended_lookup (extra : extmap) (state inp : string)
  : option (string * string) :=
  match defined_lookup state inp with
  | Some t => Some t
  | None => extra !! (state, inp)
  end.

(** Running it from [state] over a list of inputs: the transitions taken, as
    [(source, destination, output)], or [None] where a step has none. *)
Fixpoint replay (extra : extmap) (state : string) (inputs : list string)
  : option (list (string * string * string)) :=
  match inputs with
  | [] => Some []
  | inp :: inputs' =>
    match extended_lookup extra state inp with
    | Some (dest, out) =>
      match replay extra dest inputs' with
      | Some run => Some ((state, dest, out) :: run)
      | None => None
      end
    | None => None
    end
  end.

(** The path, read as such a run. *)
Definition run_of (path : list path_entry) : list (string * string * string) :=
  (λ e, (pe_from e, pe_dest e, pe_out e)) <$> path.

(** ** Around the search: the steps, the driver and the report *)

(** [inp + req_out] of each step, joined: the string the steps are cut from. *)
Definition join_steps (steps : list (string * string)) : string :=
  foldr (λ step acc, step.1 +:+ step.2 +:+ acc) "" steps.

(** The characters ['0'] and ['1']. *)
Definition bit (c : Ascii.ascii) : Prop := String c "" = "0" ∨ String c "" = "1".

#[global] Instance bit_dec c : Decision (bit c).
Proof. unfold bit. apply _. Defined.

(** [re.sub(r'[^01]', '', test_str)]: every character but ['0'] and ['1'] is
    taken out. *)
Fixpoint clean (test_str : string) : string :=
  match test_str with
  | EmptyString => EmptyString
  | String c rest =>
    if decide (bit c) then String c (clean rest) else clean rest
  end.

(** A string of ['0'] and ['1'] only. *)
Fixpoint binary (s : string) : Prop :=
  match s with
  | EmptyString => True
  | String c rest => bit c ∧ binary rest
  end.

(** The test cases of the driver, and what it runs on each. *)
Definition test_strs : list string :=
  [ "001_010_010_101_100_001_110_110";
    "111_010_000_100_110_101_110_000" ].

Definition main (iter_set : gset string → list string) : list outcome :=
  (λ test_str, solve iter_set (clean test_str)) <$> test_strs.

(** The text after the destination in a path line. *)
Definition transition_type (is_extra is_new : bool) : string :=
  if is_extra then
    " (extra" +:+ (if is_new then ", new node)" else ")")
  else "".

(** [f"{frm} --({inp}/{outp})--> {dest}{transition_type}"] *)
Definition render_entry (e : path_entry) : string :=
  pe_from e +:+ " --(" +:+ pe_inp e +:+ "/" +:+ pe_out e +:+ ")--> "
    +:+ pe_dest e +:+ transition_type (pe_extra e) (pe_new e).

(** The lines that [solve] prints; [str] of a count is its decimal form. *)
Definition render_report (r : report) : list string :=
  [ "Extra Cost = " +:+ pretty (extra_cost r);
    "Extra Path = " +:+ pretty (extra_path r);
    "Extra Node = " +:+ pretty (extra_node r);
    "Path:" ]
  ++ (render_entry <$> best_path r).

Definition printed (o : outcome) : list string :=
  match o with
  | ValueError _ => []
  | NoValidPath => ["No valid path found."]
  | Solved r => render_report r
  end.

(** The last character of a string, as a string; empty for the empty string. *)
Fixpoint last_of (s : string) : string :=
  match s with
  | EmptyString => EmptyString
  | String c EmptyString => String c EmptyString
  | String _ rest => last_of rest
  end.

Definition digit (s : string) : Prop :=
  s ∈ ["0"; "1"; "2"; "3"; "4"; "5"; "6"; "7"; "8"; "9"].

(** * Properties *)

(** ** The predefined table *)

Lemma elem_of_INITIAL_NODES node :
  node ∈ INITIAL_NODES ↔ node = "S0" ∨ node = "S1" ∨ node = "S2" ∨ node = "S3".
Proof.
  unfold INITIAL_NODES, DEFINED_TRANSITIONS.
  rewrite dom_list_to_map_L, elem_of_list_to_set. simpl.
  rewrite !elem_of_cons, elem_of_nil. tauto.
Qed.

Lemma defined_lookup_Some node inp dest out :
  defined_lookup node inp = Some (dest, out) →
  node ∈ INITIAL_NODES ∧ dest ∈ INITIAL_NODES.
Proof.
  unfold defined_lookup. intros H.
  destruct (DEFINED_TRANSITIONS !! node) as [row|] eqn:Hrow; [|done].
  simpl in H. split.
  - apply elem_of_dom. by exists row.
  - apply elem_of_list_to_map_2 in Hrow.
    rewrite !elem_of_cons, elem_of_nil in Hrow.
    rewrite elem_of_INITIAL_NODES.
    destruct Hrow as [E|[E|[E|[E|[]]]]]; inversion E; subst; clear E;
      repeat (rewrite lookup_insert in H; case_decide;
              [simplify_eq; tauto|]);
      by rewrite lookup_empty in H.
Qed.

Lemma defined_lookup_None node inp :
  node ∉ INITIAL_NODES → defined_lookup node inp = None.
Proof.
  intros H. unfold defined_lookup, INITIAL_NODES in *.
  apply not_elem_of_dom in H. by rewrite H.
Qed.

Lemma defined_lookup_S1 inp : inp ≠ "01" → defined_lookup "S1" inp = None.
Proof.
  intros H. unfold defined_lookup.
  replace (DEFINED_TRANSITIONS !! "S1")
    with (Some (<["01" := ("S3", "1")]> (∅ : gmap string (string * string))))
    by reflexivity.
  simpl. by rewrite lookup_insert_ne, lookup_empty.
Qed.

Lemma defined_lookup_S2 : defined_lookup "S2" "01" = None.
Proof. reflexivity. Qed.

Lemma new_node_label_not_initial count : new_node_label count ∉ INITIAL_NODES.
Proof.
  rewrite elem_of_INITIAL_NODES. unfold new_node_label. simpl.
  intros [H|[H|[H|H]]]; discriminate H.
Qed.

Lemma new_node_label_inj : Inj (=) (=) new_node_label.
Proof.
  intros a b H. unfold new_node_label in H.
  cbn [String.append] in H.
  injection H as H. apply pretty_nat_inj in H. lia.
Qed.

Lemma elem_of_available_nodes (ext : extmap) dest :
  dest ∈ available_nodes ext ↔
  dest ∈ INITIAL_NODES ∨ ∃ key o, ext !! key = Some (dest, o).
Proof.
  unfold available_nodes. revert dest.
  apply (map_fold_weak_ind
           (λ acc (m : extmap), ∀ dest, dest ∈ acc ↔
              dest ∈ INITIAL_NODES ∨ ∃ key o, m !! key = Some (dest, o))).
  - intros dest. split; [by left|].
    intros [H|(key & o & H)]; [done|]. by rewrite lookup_empty in H.
  - intros key [d o] m acc Hfresh IH dest. simpl.
    rewrite elem_of_union, elem_of_singleton, IH. split.
    + intros [->|[H|(key' & o' & H)]].
      * right. exists key, o. by rewrite lookup_insert_eq.
      * by left.
      * right. exists key', o'. rewrite lookup_insert_ne; [done|].
        intros ->. by rewrite Hfresh in H.
    + intros [H|(key' & o' & H)]; [by right; left|].
      destruct (decide (key = key')) as [->|Hne].
      * rewrite lookup_insert_eq in H. left. by simplify_eq.
      * rewrite lookup_insert_ne in H by done. right; right. by exists key', o'.
Qed.

(** ** Keeping the cheapest candidate

    A loop that keeps a candidate only when it is strictly cheaper than the
    best so far ends with the first of the cheapest ones. *)
Section Selection.
Context {A B : Type} (cost : A → nat) (g : B → option A).
Context (f : option A → B → option A).
Hypothesis f_spec : ∀ best x,
  f best x = match g x with
             | Some a =>
               match best with
               | None => Some a
               | Some b => if decide (cost a < cost b) then Some a else Some b
               end
             | None => best
             end.

Lemma select_None l :
  foldl f None l = None ↔ ∀ x, x ∈ l → g x = None.
Proof.
  induction l as [|x l IH] using rev_ind.
  - split; [|done]. intros _ x Hx. by apply elem_of_nil in Hx.
  - rewrite foldl_snoc, f_spec. split.
    + intros H y Hy. apply elem_of_app in Hy as [Hy|Hy].
      * destruct (g x); [by destruct (foldl f None l); [case_decide|]|].
        by apply IH.
      * apply list_elem_of_singleton in Hy as ->.
        destruct (g x); [|done].
        by destruct (foldl f None l); [case_decide|].
    + intros H. rewrite (H x) by (apply elem_of_app; right; by left).
      apply IH. intros y Hy. apply H, elem_of_app. by left.
Qed.

Lemma select_first l r :
  foldl f None l = Some r →
  ∃ l1 x l2, l = l1 ++ x :: l2 ∧ g x = Some r
    ∧ (∀ y a, y ∈ l1 → g y = Some a → cost r < cost a)
    ∧ (∀ y a, y ∈ l2 → g y = Some a → cost r ≤ cost a).
Proof.
  revert r. induction l as [|x l IH] using rev_ind; [done|].
  intros r. rewrite foldl_snoc, f_spec.
  destruct (g x) as [a|] eqn:Hx.
  - destruct (foldl f None l) as [b|] eqn:Hl.
    + destruct (IH b eq_refl) as (l1 & x0 & l2 & -> & Hx0 & Hl1 & Hl2).
      case_decide as Hlt; intros [= <-].
      * exists (l1 ++ x0 :: l2), x, []. split_and!; [done|done| |].
        -- intros y a' Hy Ha'. apply elem_of_app in Hy as [Hy|Hy].
           ++ specialize (Hl1 y a' Hy Ha'). lia.
           ++ apply elem_of_cons in Hy as [->|Hy].
              ** rewrite Hx0 in Ha'. injection Ha' as <-. done.
              ** specialize (Hl2 y a' Hy Ha'). lia.
        -- intros y a' Hy. by apply elem_of_nil in Hy.
      * exists l1, x0, (l2 ++ [x]). split_and!; [by rewrite <-app_assoc|done|done|].
        intros y a' Hy Ha'. apply elem_of_app in Hy as [Hy|Hy]; [by eapply Hl2|].
        apply list_elem_of_singleton in Hy as ->.
        rewrite Hx in Ha'. injection Ha' as <-. lia.
    + intros [= <-]. exists l, x, []. split_and!; [done|done| |].
      * intros y a' Hy Ha'. rewrite select_None in Hl.
        rewrite (Hl y Hy) in Ha'. done.
      * intros y a' Hy. by apply elem_of_nil in Hy.
  - intros Hl. destruct (IH r Hl) as (l1 & x0 & l2 & -> & Hx0 & Hl1 & Hl2).
    exists l1, x0, (l2 ++ [x]). split_and!; [by rewrite <-app_assoc|done|done|].
    intros y a' Hy Ha'. apply elem_of_app in Hy as [Hy|Hy]; [by eapply Hl2|].
    apply list_elem_of_singleton in Hy as ->. by rewrite Hx in Ha'.
Qed.

Lemma select_min l r :
  foldl f None l = Some r →
  (∃ x, x ∈ l ∧ g x = Some r)
  ∧ ∀ y a, y ∈ l → g y = Some a → cost r ≤ cost a.
Proof.
  intros (l1 & x & l2 & -> & Hx & Hl1 & Hl2)%select_first. split.
  - exists x. split; [|done]. apply elem_of_app. right. by left.
  - intros y a Hy Ha. apply elem_of_app in Hy as [Hy|Hy].
    + specialize (Hl1 y a Hy Ha). lia.
    + apply elem_of_cons in Hy as [->|Hy].
      * rewrite Hx in Ha. by injection Ha as <-.
      * by eapply Hl2.
Qed.

Lemma select_Some l x a :
  x ∈ l → g x = Some a → ∃ r, foldl f None l = Some r.
Proof.
  intros Hx Ha. destruct (foldl f None l) as [r|] eqn:Hl; [by exists r|].
  rewrite select_None in Hl. by rewrite (Hl x Hx) in Ha.
Qed.

End Selection.

(** ** The recursive calls of [dfs] *)

Section Calls.
Variable iter_set : gset string → list string.

Lemma dfs_from_moves step rest node ext count :
  dfs_from iter_set (step :: rest) node ext count =
  foldl (λ best m,
           consider best (m_cost m) (m_entry m)
             (dfs_from iter_set rest (pe_dest (m_entry m)) (m_ext m) (m_count m)))
        None (moves iter_set step node ext count).
Proof.
  destruct step as [inp req_out]. unfold moves. cbn [dfs_from].
  destruct (defined_lookup node inp) as [[dest out]|];
    destruct (ext !! (node, inp)) as [[dest' out']|];
    repeat case_decide; rewrite ?foldl_app, ?foldl_fmap; try done;
    naive_solver.
Qed.

(** The same for [dfs] by index: at [i == len(steps)] it returns the base
    case, and at a step [steps[i]] it calls itself at [i + 1]. *)
Lemma dfs_end steps node ext count :
  dfs iter_set steps (length steps) node ext count
  = Some (DfsResult 0 [] ext count).
Proof. unfold dfs. by rewrite drop_all. Qed.

Lemma dfs_step steps i step node ext count :
  steps !! i = Some step →
  dfs iter_set steps i node ext count =
  foldl (λ best m,
           consider best (m_cost m) (m_entry m)
             (dfs iter_set steps (i + 1) (pe_dest (m_entry m)) (m_ext m)
                (m_count m)))
        None (moves iter_set step node ext count).
Proof.
  intros H. unfold dfs.
  rewrite (drop_S _ _ _ H), dfs_from_moves. by rewrite Nat.add_1_r.
Qed.

Lemma consider_candidate rest best m :
  consider best (m_cost m) (m_entry m)
    (dfs_from iter_set rest (pe_dest (m_entry m)) (m_ext m) (m_count m)) =
  match candidate iter_set rest m with
  | Some a =>
    match best with
    | None => Some a
    | Some b => if decide (r_cost a < r_cost b) then Some a else Some b
    end
  | None => best
  end.
Proof. unfold candidate, consider. by destruct (dfs_from _ _ _ _ _). Qed.

Lemma elem_of_moves inp req_out node ext count m :
  m ∈ moves iter_set (inp, req_out) node ext count ↔
  (∃ dest, defined_lookup node inp = Some (dest, req_out)
     ∧ m = Move 0 (PathEntry node inp req_out dest false false) ext count)
  ∨ (∃ dest, ext !! (node, inp) = Some (dest, req_out)
     ∧ m = Move 0 (PathEntry node inp req_out dest false false) ext count)
  ∨ (defined_lookup node inp = None ∧ ext !! (node, inp) = None
     ∧ ∃ dest, dest ∈ iter_set (available_nodes ext)
     ∧ m = Move 1 (PathEntry node inp req_out dest true false)
             (<[(node, inp) := (dest, req_out)]> ext) count)
  ∨ (defined_lookup node inp = None ∧ ext !! (node, inp) = None
     ∧ m = Move 2 (PathEntry node inp req_out (new_node_label count) true true)
             (<[(node, inp) := (new_node_label count, req_out)]> ext)
             (count + 1)).
Proof.
  unfold moves. rewrite !elem_of_app. split.
  - intros [H|[H|H]].
    + left. destruct (defined_lookup node inp) as [[dest out]|];
        [|by apply elem_of_nil in H].
      case_decide; [|by apply elem_of_nil in H].
      apply list_elem_of_singleton in H. subst. by exists dest.
    + right; left. destruct (ext !! (node, inp)) as [[dest out]|];
        [|by apply elem_of_nil in H].
      case_decide; [|by apply elem_of_nil in H].
      apply list_elem_of_singleton in H. subst. by exists dest.
    + right; right. case_decide as Hg; [|by apply elem_of_nil in H].
      destruct Hg as [Hd He]. apply elem_of_app in H as [H|H].
      * left. apply list_elem_of_fmap in H as (dest & -> & H). eauto.
      * right. apply list_elem_of_singleton in H. done.
  - intros [(dest & -> & ->)|[(dest & -> & ->)|[(Hd & He & dest & H & ->)|(Hd & He & ->)]]].
    + left. rewrite decide_True by done. by left.
    + right; left. rewrite decide_True by done. by left.
    + right; right. rewrite decide_True by done. apply elem_of_app. left.
      apply list_elem_of_fmap. by exists dest.
    + right; right. rewrite decide_True by done. apply elem_of_app. right.
      by left.
Qed.

End Calls.

(** ** What a completion is made of *)

Lemma path_cost_cons e path :
  path_cost (e :: path) =
  (if pe_extra e then 1 else 0) + (if pe_new e then 1 else 0) + path_cost path.
Proof.
  unfold path_cost, added_transitions, synthesized_states.
  rewrite !filter_cons. destruct (pe_extra e), (pe_new e);
    repeat case_decide; try done; simpl; lia.
Qed.

Lemma completion_length rest node ext count path ext' count' :
  completion rest node ext count path ext' count' →
  length path = length rest.
Proof. induction 1; simpl; congruence. Qed.

Lemma completion_chained rest node ext count path ext' count' :
  completion rest node ext count path ext' count' → chained node path.
Proof. induction 1; simpl; auto. Qed.

Lemma completion_count rest node ext count path ext' count' :
  completion rest node ext count path ext' count' →
  count' = count + synthesized_states path.
Proof.
  unfold synthesized_states.
  induction 1; rewrite ?filter_cons; simpl; try case_decide; simpl; try done; lia.
Qed.

Lemma ext_fresh_insert ext node inp t :
  ext_fresh ext → defined_lookup node inp = None →
  ext_fresh (<[(node, inp) := t]> ext).
Proof.
  intros Hf Hd key t' H. destruct (decide ((node, inp) = key)) as [<-|Hne].
  - done.
  - rewrite lookup_insert_ne in H by done. by eapply Hf.
Qed.

Lemma ext_fresh_empty : ext_fresh ∅.
Proof. intros key t H. by rewrite lookup_empty in H. Qed.

Lemma completion_ext rest node ext count path ext' count' :
  completion rest node ext count path ext' count' →
  ext_fresh ext → ext ⊆ ext' ∧ ext_fresh ext'.
Proof.
  induction 1 as [| | |inp out rest state ext count dest path ext' count' Hd He _ _ IH
                  |inp out rest state ext count path ext' count' Hd He _ IH];
    intros Hf; auto.
  - destruct IH as [Hsub Hf']; [by apply ext_fresh_insert|]. split; [|done].
    etrans; [|exact Hsub]. by apply insert_subseteq.
  - destruct IH as [Hsub Hf']; [by apply ext_fresh_insert|]. split; [|done].
    etrans; [|exact Hsub]. by apply insert_subseteq.
Qed.

Lemma extended_lookup_defined extra state inp t :
  defined_lookup state inp = Some t → extended_lookup extra state inp = Some t.
Proof. unfold extended_lookup. by intros ->. Qed.

Lemma extended_lookup_extra (extra : extmap) state inp t :
  ext_fresh extra → extra !! (state, inp) = Some t →
  extended_lookup extra state inp = Some t.
Proof.
  intros Hf H. unfold extended_lookup.
  pose proof (Hf (state, inp) t H) as Hd. simpl in Hd. by rewrite Hd.
Qed.

Lemma completion_replay rest node ext count path ext' count' :
  completion rest node ext count path ext' count' →
  ext_fresh ext →
  ∀ extra : extmap, ext' ⊆ extra → ext_fresh extra →
    replay extra node rest.*1 = Some (run_of path)
    ∧ pe_out <$> path = rest.*2
    ∧ pe_inp <$> path = rest.*1.
Proof.
  induction 1 as [|inp out rest state ext count dest path ext' count' Hd Hc IH
                  |inp out rest state ext count dest path ext' count' He Hc IH
                  |inp out rest state ext count dest path ext' count' Hd He _ Hc IH
                  |inp out rest state ext count path ext' count' Hd He Hc IH];
    intros Hf extra Hsub Hfx; [done|..]; cbn [replay fmap list_fmap fst snd].
  - destruct (IH Hf extra Hsub Hfx) as (Hr & -> & ->).
    by rewrite (extended_lookup_defined _ _ _ _ Hd), Hr.
  - destruct (IH Hf extra Hsub Hfx) as (Hr & -> & ->).
    destruct (completion_ext _ _ _ _ _ _ _ Hc Hf) as [Hsub' _].
    rewrite (extended_lookup_extra extra state inp (dest, out)), ?Hr; [done|done|].
    eapply lookup_weaken; [exact He|]. by etrans.
  - destruct (IH (ext_fresh_insert _ _ _ _ Hf Hd) extra Hsub Hfx) as (Hr & -> & ->).
    destruct (completion_ext _ _ _ _ _ _ _ Hc (ext_fresh_insert _ _ _ _ Hf Hd))
      as [Hsub' _].
    rewrite (extended_lookup_extra extra state inp (dest, out)), ?Hr; [done|done|].
    eapply lookup_weaken; [apply lookup_insert_eq|]. by etrans.
  - destruct (IH (ext_fresh_insert _ _ _ _ Hf Hd) extra Hsub Hfx) as (Hr & -> & ->).
    destruct (completion_ext _ _ _ _ _ _ _ Hc (ext_fresh_insert _ _ _ _ Hf Hd))
      as [Hsub' _].
    rewrite (extended_lookup_extra extra state inp (new_node_label count, out)), ?Hr;
      [done|done|].
    eapply lookup_weaken; [apply lookup_insert_eq|]. by etrans.
Qed.

(** ** The search against the completions *)

Section SearchProperties.
Variable iter_set : gset string → list string.
Hypothesis iter_set_enumerates : ∀ X, iter_set X ≡ₚ elements X.

Lemma elem_of_iter_set X node : node ∈ iter_set X ↔ node ∈ X.
Proof. by rewrite iter_set_enumerates, elem_of_elements. Qed.

Lemma move_completion inp req_out rest node ext count m path ext' count' :
  m ∈ moves iter_set (inp, req_out) node ext count →
  completion rest (pe_dest (m_entry m)) (m_ext m) (m_count m) path ext' count' →
  completion ((inp, req_out) :: rest) node ext count (m_entry m :: path) ext' count'
  ∧ path_cost (m_entry m :: path) = m_cost m + path_cost path.
Proof.
  rewrite elem_of_moves, path_cost_cons.
  intros [(dest & Hd & ->)|[(dest & He & ->)|[(Hd & He & dest & H & ->)|(Hd & He & ->)]]];
    simpl; intros Hc; (split; [|done]).
  - by apply completion_predefined.
  - by apply completion_reused.
  - apply completion_new_extension; [done|done| |done].
    by apply elem_of_available_nodes, elem_of_iter_set.
  - by apply completion_new_state.
Qed.

(** What [dfs] returns is a completion, and its cost is the cost of that
    completion. *)
Lemma dfs_from_sound rest node ext count r :
  dfs_from iter_set rest node ext count = Some r →
  completion rest node ext count (r_path r) (r_et r) (r_new r)
  ∧ r_cost r = path_cost (r_path r).
Proof.
  revert node ext count r.
  induction rest as [|[inp req_out] rest IH]; intros node ext count r.
  - intros [= <-]. split; [constructor|done].
  - rewrite dfs_from_moves. intros H.
    apply (select_min r_cost (candidate iter_set rest)) in H
      as [(m & Hm & Hcand) _]; [|apply consider_candidate].
    unfold candidate in Hcand.
    destruct (dfs_from iter_set rest _ _ _) as [r'|] eqn:Hr'; [|done].
    injection Hcand as <-. simpl.
    destruct (IH _ _ _ _ Hr') as [Hc Hcost].
    destruct (move_completion _ _ _ _ _ _ _ _ _ _ Hm Hc) as [Hc' Hcost'].
    split; [done|]. rewrite Hcost'. lia.
Qed.

(** No completion is cheaper than what [dfs] returns, and [dfs] returns a
    result wherever there is a completion. *)
Lemma dfs_from_complete rest node ext count path ext' count' :
  completion rest node ext count path ext' count' →
  ∃ r, dfs_from iter_set rest node ext count = Some r
       ∧ r_cost r ≤ path_cost path.
Proof.
  assert (Hstep : ∀ inp req_out rest node ext count m path r',
    m ∈ moves iter_set (inp, req_out) node ext count →
    dfs_from iter_set rest (pe_dest (m_entry m)) (m_ext m) (m_count m) = Some r' →
    r_cost r' ≤ path_cost path →
    ∃ r, dfs_from iter_set ((inp, req_out) :: rest) node ext count = Some r
         ∧ r_cost r ≤ m_cost m + path_cost path).
  { clear. intros inp req_out rest node ext count m path r' Hm Hr' Hle.
    assert (Hcand : candidate iter_set rest m
                    = Some (candidate_of (m_cost m) (m_entry m) r'))
      by (unfold candidate; by rewrite Hr').
    rewrite dfs_from_moves.
    destruct (select_Some r_cost (candidate iter_set rest) _
                (consider_candidate iter_set rest) _ _ _ Hm Hcand) as [r Hr].
    exists r. split; [done|].
    apply (select_min r_cost (candidate iter_set rest)) in Hr as [_ Hmin];
      [|apply consider_candidate].
    specialize (Hmin _ _ Hm Hcand). simpl in Hmin. lia. }
  induction 1 as [|inp out rest state ext count dest path ext' count' Hd Hc IH
                  |inp out rest state ext count dest path ext' count' He Hc IH
                  |inp out rest state ext count dest path ext' count' Hd He Hav Hc IH
                  |inp out rest state ext count path ext' count' Hd He Hc IH].
  - by eexists.
  - destruct IH as (r' & Hr' & Hle). rewrite path_cost_cons. simpl.
    eapply (Hstep _ _ _ _ _ _
              (Move 0 (PathEntry state inp out dest false false) ext count));
      [|exact Hr'|exact Hle].
    apply elem_of_moves. left. by exists dest.
  - destruct IH as (r' & Hr' & Hle). rewrite path_cost_cons. simpl.
    eapply (Hstep _ _ _ _ _ _
              (Move 0 (PathEntry state inp out dest false false) ext count));
      [|exact Hr'|exact Hle].
    apply elem_of_moves. right; left. by exists dest.
  - destruct IH as (r' & Hr' & Hle). rewrite path_cost_cons. simpl.
    eapply (Hstep _ _ _ _ _ _
              (Move 1 (PathEntry state inp out dest true false)
                 (<[(state, inp) := (dest, out)]> ext) count));
      [|exact Hr'|exact Hle].
    apply elem_of_moves. right; right; left. split_and!; [done..|].
    exists dest. split; [|done].
    by apply elem_of_iter_set, elem_of_available_nodes.
  - destruct IH as (r' & Hr' & Hle). rewrite path_cost_cons. simpl.
    eapply (Hstep _ _ _ _ _ _
              (Move 2 (PathEntry state inp out (new_node_label count) true true)
                 (<[(state, inp) := (new_node_label count, out)]> ext) (count + 1)));
      [|exact Hr'|exact Hle].
    apply elem_of_moves. right; right; right. done.
Qed.

(** *** Fresh nodes *)

Lemma new_node_label_not_known count : ¬ known count (new_node_label count).
Proof.
  intros [H|(j & Hj & H)].
  - by apply new_node_label_not_initial in H.
  - apply new_node_label_inj in H. lia.
Qed.

Lemma known_mono count node : known count node → known (count + 1) node.
Proof.
  intros [H|(j & Hj & H)]; [by left|]. right. exists j. split; [lia|done].
Qed.

Lemma new_node_known node ext count inp req_out :
  nodes_known node ext count →
  nodes_known (new_node_label count)
    (<[(node, inp) := (new_node_label count, req_out)]> ext) (count + 1).
Proof.
  intros [Hn Hk].
  assert (Hl : known (count + 1) (new_node_label count))
    by (right; exists count; split; [lia|done]).
  split; [done|]. intros key t H.
  destruct (decide ((node, inp) = key)) as [<-|Hne].
  - rewrite lookup_insert_eq in H. injection H as <-. simpl.
    split; [by apply known_mono|done].
  - rewrite lookup_insert_ne in H by done.
    destruct (Hk key t H). split; by apply known_mono.
Qed.

Lemma new_node_no_transition (node : string) (ext : extmap) (count : nat)
    (inp req_out inp' : string) :
  nodes_known node ext count →
  defined_lookup (new_node_label count) inp' = None
  ∧ <[(node, inp) := (new_node_label count, req_out)]> ext
      !! (new_node_label count, inp') = None.
Proof.
  intros [Hn Hk]. split.
  - apply defined_lookup_None, new_node_label_not_initial.
  - rewrite lookup_insert_ne.
    + destruct (ext !! (new_node_label count, inp')) as [t|] eqn:H; [|done].
      destruct (Hk _ _ H) as [Hl _]. by apply new_node_label_not_known in Hl.
    + intros [= -> _]. by apply new_node_label_not_known in Hn.
Qed.

(** The search returns a result from every node that has no transition yet
    for the input of the step it is at: making a new node is a way on, and the
    new node has no transition at all. *)
Lemma dfs_from_open rest node ext count :
  nodes_known node ext count →
  match rest with
  | [] => True
  | (inp, _) :: _ =>
    defined_lookup node inp = None ∧ ext !! (node, inp) = None
  end →
  is_Some (dfs_from iter_set rest node ext count).
Proof.
  revert node ext count.
  induction rest as [|[inp req_out] rest IH]; intros node ext count Hk Hopen.
  - by eexists.
  - destruct Hopen as [Hd He].
    set (m := Move 2 (PathEntry node inp req_out (new_node_label count) true true)
                (<[(node, inp) := (new_node_label count, req_out)]> ext)
                (count + 1)).
    assert (Hm : m ∈ moves iter_set (inp, req_out) node ext count)
      by (apply elem_of_moves; right; right; right; done).
    destruct (IH (new_node_label count)
                 (<[(node, inp) := (new_node_label count, req_out)]> ext)
                 (count + 1)) as [r' Hr'].
    { by apply new_node_known. }
    { destruct rest as [|[inp' req_out'] rest']; [done|].
      by apply new_node_no_transition. }
    rewrite dfs_from_moves.
    destruct (select_Some r_cost (candidate iter_set rest) _
                (consider_candidate iter_set rest) _ m
                (candidate_of (m_cost m) (m_entry m) r') Hm) as [r Hr].
    { unfold candidate. simpl. by rewrite Hr'. }
    by exists r.
Qed.

(** *** The loop over the start nodes *)

Lemma start_loop_step steps best start :
  match dfs iter_set steps 0 start ∅ 0 with
  | Some res =>
    match best with
    | None => Some (res, start)
    | Some (b, _) =>
      if decide (r_cost res < r_cost b) then Some (res, start) else best
    end
  | None => best
  end =
  match (λ res, (res, start)) <$> dfs_from iter_set steps start ∅ 0 with
  | Some a =>
    match best with
    | None => Some a
    | Some b => if decide (r_cost a.1 < r_cost b.1) then Some a else Some b
    end
  | None => best
  end.
Proof.
  unfold dfs. rewrite drop_0.
  destruct (dfs_from iter_set steps start ∅ 0); simpl; [|done].
  by destruct best as [[b s]|].
Qed.

Lemma start_loop_Some steps res start :
  start_loop iter_set steps = Some (res, start) →
  start ∈ INITIAL_NODES
  ∧ dfs_from iter_set steps start ∅ 0 = Some res
  ∧ ∀ start' res', start' ∈ INITIAL_NODES →
      dfs_from iter_set steps start' ∅ 0 = Some res' →
      r_cost res ≤ r_cost res'.
Proof.
  unfold start_loop. intros H.
  apply (select_min (λ a : dfs_result * string, r_cost a.1)
           (λ start, (λ res, (res, start)) <$> dfs_from iter_set steps start ∅ 0))
    in H as [(x & Hx & Hg) Hmin]; [|apply start_loop_step].
  destruct (dfs_from iter_set steps x ∅ 0) as [r|] eqn:Hr; [|done].
  injection Hg as <- <-. split_and!; [by apply elem_of_iter_set in Hx|done|].
  intros start' res' Hs Hr'.
  apply (Hmin start' (res', start')); [by apply elem_of_iter_set|].
  by rewrite Hr'.
Qed.

Lemma start_loop_is_Some steps start :
  start ∈ INITIAL_NODES →
  is_Some (dfs_from iter_set steps start ∅ 0) →
  is_Some (start_loop iter_set steps).
Proof.
  intros Hs [res Hres]. unfold start_loop.
  destruct (select_Some (λ a : dfs_result * string, r_cost a.1)
              (λ start, (λ res, (res, start)) <$> dfs_from iter_set steps start ∅ 0)
              _ (start_loop_step steps) (iter_set INITIAL_NODES) start (res, start))
    as [r Hr].
  - by apply elem_of_iter_set.
  - by rewrite Hres.
  - by exists r.
Qed.

Lemma nodes_known_start start : start ∈ INITIAL_NODES → nodes_known start ∅ 0.
Proof.
  intros H. split; [by left|]. intros key t Hl. by rewrite lookup_empty in Hl.
Qed.

(** For every first step one of the start nodes has no predefined transition
    on its input. *)
Lemma start_loop_total steps : is_Some (start_loop iter_set steps).
Proof.
  destruct steps as [|[inp req_out] rest].
  - apply (start_loop_is_Some [] "S1"); [|by eexists].
    apply elem_of_INITIAL_NODES. tauto.
  - destruct (decide (inp = "01")) as [->|Hne].
    + apply (start_loop_is_Some _ "S2"); [apply elem_of_INITIAL_NODES; tauto|].
      apply dfs_from_open; [apply nodes_known_start, elem_of_INITIAL_NODES; tauto|].
      split; [apply defined_lookup_S2|apply lookup_empty].
    + apply (start_loop_is_Some _ "S1"); [apply elem_of_INITIAL_NODES; tauto|].
      apply dfs_from_open; [apply nodes_known_start, elem_of_INITIAL_NODES; tauto|].
      split; [by apply defined_lookup_S1|apply lookup_empty].
Qed.

Lemma length_steps_of binary_string :
  length (steps_of binary_string) = String.length binary_string / 3.
Proof. unfold steps_of. by rewrite length_fmap, length_seq. Qed.

(** What a report of [solve] comes from. *)
Lemma solve_Solved binary_string r :
  solve iter_set binary_string = Solved r →
  String.length binary_string `mod` 3 = 0
  ∧ start_node r ∈ INITIAL_NODES
  ∧ ∃ res,
      dfs_from iter_set (steps_of binary_string) (start_node r) ∅ 0 = Some res
      ∧ r = Report (r_cost res) (added_transitions (r_path res)) (r_new res)
                   (r_path res) (r_et res) (start_node r)
      ∧ ∀ start' res', start' ∈ INITIAL_NODES →
          dfs_from iter_set (steps_of binary_string) start' ∅ 0 = Some res' →
          r_cost res ≤ r_cost res'.
Proof.
  unfold solve. case_decide as Hlen; [done|].
  destruct (start_loop iter_set (steps_of binary_string)) as [[res start]|] eqn:Hl;
    [|done].
  intros [= <-]. simpl.
  apply start_loop_Some in Hl as (Hs & Hres & Hmin).
  split_and!; [|done|by exists res].
  by destruct (decide (String.length binary_string `mod` 3 = 0)).
Qed.

Lemma solve_total binary_string :
  String.length binary_string `mod` 3 = 0 →
  ∃ r, solve iter_set binary_string = Solved r.
Proof.
  intros Hlen. unfold solve. rewrite decide_False by (by intros ?).
  destruct (start_loop_total (steps_of binary_string)) as [[res start] ->].
  by eexists.
Qed.

End SearchProperties.

(** ** The cache

    The search with the cache returns what the search without it returns. *)
Section Cache.
Variable iter_set : gset string → list string.
Variable steps : list (string * string).

Lemma dfs_cached_cons (step : string * string) (rest : list (string * string))
    (i : nat) (node : string) (ext : extmap) (count : nat) (cache : memo) :
  dfs_cached iter_set (step :: rest) i node ext count cache =
  match cache !! (i, node, ext, count) with
  | Some res => (res, cache)
  | None =>
    let st :=
      foldl (λ st m,
               dfs_cached_step (dfs_cached iter_set rest (i + 1))
                 (m_cost m) (m_entry m) (m_ext m) (m_count m) st)
            (None, cache) (moves iter_set step node ext count) in
    (st.1, <[(i, node, ext, count) := st.1]> st.2)
  end.
Proof.
  destruct step as [inp req_out]. cbn [dfs_cached].
  destruct (cache !! (i, node, ext, count)); [done|].
  unfold moves.
  destruct (defined_lookup node inp) as [[dest out]|];
    destruct (ext !! (node, inp)) as [[dest' out']|];
    repeat case_decide; rewrite ?foldl_app, ?foldl_fmap; simpl;
    try (by match goal with |- (let '(_, _) := ?x in _) = _ => destruct x end);
    naive_solver.
Qed.

Lemma cache_sound_empty : cache_sound iter_set steps ∅.
Proof. intros i node ext count res H. by rewrite lookup_empty in H. Qed.

Lemma cache_sound_insert (i : nat) (node : string) (ext : extmap) (count : nat)
    (cache : memo) :
  cache_sound iter_set steps cache →
  cache_sound iter_set steps
    (<[(i, node, ext, count) := dfs iter_set steps i node ext count]> cache).
Proof.
  intros Hc i' node' ext' count' res H.
  destruct (decide ((i, node, ext, count) = (i', node', ext', count')))
    as [[= <- <- <- <-]|Hne].
  - rewrite lookup_insert_eq in H. by injection H as <-.
  - rewrite lookup_insert_ne in H by done. by apply Hc.
Qed.

Lemma dfs_cached_fold (rest : list (string * string)) (i : nat) (l : list move)
    (best : option dfs_result) (cache : memo) :
  (∀ node ext count cache,
     cache_sound iter_set steps cache →
     (dfs_cached iter_set rest (i + 1) node ext count cache).1
       = dfs_from iter_set rest node ext count
     ∧ cache_sound iter_set steps
         (dfs_cached iter_set rest (i + 1) node ext count cache).2) →
  cache_sound iter_set steps cache →
  let st :=
    foldl (λ st m,
             dfs_cached_step (dfs_cached iter_set rest (i + 1))
               (m_cost m) (m_entry m) (m_ext m) (m_count m) st)
          (best, cache) l in
  st.1 = foldl (λ best m,
                  consider best (m_cost m) (m_entry m)
                    (dfs_from iter_set rest (pe_dest (m_entry m)) (m_ext m)
                       (m_count m)))
               best l
  ∧ cache_sound iter_set steps st.2.
Proof.
  intros Hcall. revert best cache.
  induction l as [|m l IH]; intros best cache Hc; [done|].
  cbn [foldl].
  destruct (Hcall (pe_dest (m_entry m)) (m_ext m) (m_count m) cache Hc)
    as [Hres Hc'].
  assert (Hstep :
    dfs_cached_step (dfs_cached iter_set rest (i + 1))
      (m_cost m) (m_entry m) (m_ext m) (m_count m) (best, cache)
    = (consider best (m_cost m) (m_entry m)
         (dfs_from iter_set rest (pe_dest (m_entry m)) (m_ext m) (m_count m)),
       (dfs_cached iter_set rest (i + 1) (pe_dest (m_entry m)) (m_ext m)
          (m_count m) cache).2)).
  { unfold dfs_cached_step. cbn [fst snd].
    destruct (dfs_cached iter_set rest (i + 1) (pe_dest (m_entry m)) (m_ext m)
                (m_count m) cache) as [res cache'].
    simpl in Hres. by subst res. }
  rewrite Hstep. by apply IH.
Qed.

Lemma dfs_cached_correct (rest : list (string * string)) (i : nat)
    (node : string) (ext : extmap) (count : nat) (cache : memo) :
  drop i steps = rest →
  cache_sound iter_set steps cache →
  (dfs_cached iter_set rest i node ext count cache).1
    = dfs_from iter_set rest node ext count
  ∧ cache_sound iter_set steps
      (dfs_cached iter_set rest i node ext count cache).2.
Proof.
  revert i node ext count cache.
  induction rest as [|step rest IH]; intros i node ext count cache Hdrop Hc.
  - cbn [dfs_cached dfs_from].
    destruct (cache !! (i, node, ext, count)) as [res|] eqn:Hl; simpl.
    + split; [|done]. apply Hc in Hl. unfold dfs in Hl. by rewrite Hdrop in Hl.
    + split; [done|].
      replace (Some (DfsResult 0 [] ext count))
        with (dfs iter_set steps i node ext count)
        by (unfold dfs; by rewrite Hdrop).
      by apply cache_sound_insert.
  - rewrite dfs_cached_cons.
    destruct (cache !! (i, node, ext, count)) as [res|] eqn:Hl; simpl.
    + split; [|done]. apply Hc in Hl. unfold dfs in Hl. by rewrite Hdrop in Hl.
    + assert (Hdrop' : drop (i + 1) steps = rest).
      { by rewrite <-drop_drop, Hdrop. }
      destruct (dfs_cached_fold rest i (moves iter_set step node ext count)
                  None cache) as [Hres Hc']; [|done|].
      { intros node' ext' count' cache' Hcs. by apply IH. }
      simpl in Hres, Hc'. rewrite Hres, <-dfs_from_moves. split; [done|].
      replace (dfs_from iter_set (step :: rest) node ext count)
        with (dfs iter_set steps i node ext count)
        by (unfold dfs; by rewrite Hdrop).
      by apply cache_sound_insert.
Qed.

Lemma start_loop_cached_correct :
  (start_loop_cached iter_set steps).1 = start_loop iter_set steps.
Proof.
  unfold start_loop_cached, start_loop.
  assert (H : ∀ l best (cache : memo),
    cache_sound iter_set steps cache →
    (foldl (λ '(best_overall, cache) start,
              let '(res, cache) := dfs_cached iter_set steps 0 start ∅ 0 cache in
              (match res with
               | Some res =>
                 match best_overall with
                 | None => Some (res, start)
                 | Some (b, _) =>
                   if decide (r_cost res < r_cost b) then Some (res, start)
                   else best_overall
                 end
               | None => best_overall
               end, cache))
           (best, cache) l).1
    = foldl (λ best_overall start,
               match dfs iter_set steps 0 start ∅ 0 with
               | Some res =>
                 match best_overall with
                 | None => Some (res, start)
                 | Some (b, _) =>
                   if decide (r_cost res < r_cost b) then Some (res, start)
                   else best_overall
                 end
               | None => best_overall
               end)
            best l).
  { induction l as [|start l IH]; intros best cache Hc; [done|].
    cbn [foldl].
    destruct (dfs_cached_correct steps 0 start ∅ 0 cache) as [Hres Hc'];
      [done|done|].
    destruct (dfs_cached iter_set steps 0 start ∅ 0 cache) as [res cache'].
    simpl in Hres, Hc'. subst res. unfold dfs at 2. rewrite drop_0.
    by apply IH. }
  apply H, cache_sound_empty.
Qed.

End Cache.

Lemma solve_cached_correct iter_set binary_string :
  solve_cached iter_set binary_string = solve iter_set binary_string.
Proof.
  unfold solve_cached, solve. by rewrite start_loop_cached_correct.
Qed.

(** ** Two runs *)

Lemma ascending_enumerates X : ascending X ≡ₚ elements X.
Proof. apply merge_sort_Permutation. Qed.

Lemma descending_enumerates X : descending X ≡ₚ elements X.
Proof.
  unfold descending. by rewrite reverse_Permutation, ascending_enumerates.
Qed.

(** The cost that [solve] reports is the same under every enumeration order:
    either way it is the least cost of a completion. *)
Lemma solve_cost_unique iter1 iter2 binary_string r1 r2 :
  (∀ X, iter1 X ≡ₚ elements X) →
  (∀ X, iter2 X ≡ₚ elements X) →
  solve iter1 binary_string = Solved r1 →
  solve iter2 binary_string = Solved r2 →
  extra_cost r1 = extra_cost r2.
Proof.
  intros H1 H2 Hs1 Hs2.
  apply (solve_Solved iter1 H1) in Hs1 as (_ & Hstart1 & res1 & Hr1 & -> & Hmin1).
  apply (solve_Solved iter2 H2) in Hs2 as (_ & Hstart2 & res2 & Hr2 & -> & Hmin2).
  simpl in *.
  destruct (dfs_from_sound iter1 H1 _ _ _ _ _ Hr1) as [Hc1 Hcost1].
  destruct (dfs_from_sound iter2 H2 _ _ _ _ _ Hr2) as [Hc2 Hcost2].
  destruct (dfs_from_complete iter2 H2 _ _ _ _ _ _ _ Hc1) as (r & Hr & Hle1).
  destruct (dfs_from_complete iter1 H1 _ _ _ _ _ _ _ Hc2) as (r' & Hr' & Hle2).
  specialize (Hmin2 _ _ Hstart1 Hr). specialize (Hmin1 _ _ Hstart2 Hr'). lia.
Qed.

(** * The claims of the design document *)

Lemma chained_lookup node path :
  chained node path →
  (∀ e, path !! 0 = Some e → pe_from e = node)
  ∧ ∀ i e1 e2, path !! i = Some e1 → path !! (i + 1) = Some e2 →
      pe_dest e1 = pe_from e2.
Proof.
  revert node. induction path as [|e path IH]; intros node; [done|].
  intros [Hfrom Hrest]. destruct (IH _ Hrest) as [Hhead Hnext]. split.
  - by intros e' [= <-].
  - intros [|i] e1 e2; simpl.
    + intros [= <-] H2. symmetry. by apply Hhead.
    + apply Hnext.
Qed.

Lemma completion_new_extra rest node ext count path ext' count' :
  completion rest node ext count path ext' count' →
  Forall (λ e, pe_new e = true → pe_extra e = true) path.
Proof. induction 1; constructor; done. Qed.

Example example_solved : solve ascending "000010" = Solved example_report.
Proof. reflexivity. Qed.

Example example_solved_cached :
  solve_cached ascending "000010" = Solved example_report.
Proof. reflexivity. Qed.

(** At every search node that [solve] reaches the nodes in use exist, and
    every new node made so far is the destination of an extra transition. *)
Lemma visited_known iter_set steps rest node ext count :
  (∀ X, iter_set X ≡ₚ elements X) →
  visited iter_set steps rest node ext count →
  nodes_known node ext count
  ∧ ∀ j, j < count → ∃ key o, ext !! key = Some (new_node_label j, o).
Proof.
  intros Hit.
  induction 1 as [start Hs|[inp req_out] rest node ext count m _ [[Hn Hk] Hall] Hm].
  - split; [|intros j Hj; lia].
    by apply nodes_known_start, (elem_of_iter_set iter_set Hit).
  - apply elem_of_moves in Hm
      as [(dest & Hd & ->)|[(dest & He & ->)|[(Hd & He & dest & Hav & ->)|(Hd & He & ->)]]];
      simpl.
    + split; [|done]. split; [|done].
      left. by apply defined_lookup_Some in Hd as [_ ?].
    + split; [|done]. split; [|done]. by destruct (Hk _ _ He).
    + assert (Hdest : known count dest).
      { apply (elem_of_iter_set iter_set Hit), elem_of_available_nodes in Hav
          as [H|(key & o & H)]; [by left|]. by destruct (Hk _ _ H). }
      split.
      * split; [done|]. intros key t H.
        destruct (decide ((node, inp) = key)) as [<-|Hne].
        -- rewrite lookup_insert_eq in H. by injection H as <-.
        -- rewrite lookup_insert_ne in H by done. by apply Hk in H.
      * intros j Hj. destruct (Hall j Hj) as (key & o & H).
        exists key, o. rewrite lookup_insert_ne; [done|]. intros <-. congruence.
    + split; [by apply new_node_known|].
      intros j Hj. destruct (decide (j = count)) as [->|Hne].
      * exists (node, inp), req_out. apply lookup_insert_eq.
      * destruct (Hall j) as (key & o & H); [lia|].
        exists key, o. rewrite lookup_insert_ne; [done|]. intros <-. congruence.
Qed.

Section Claims.
Variable iter_set : gset string → list string.
Hypothesis iter_set_enumerates : ∀ X, iter_set X ≡ₚ elements X.

(** C1: where [solve] reports a result, the path it returns is a legal
    completion from its start node whose cost, added transitions plus
    synthesized states, is the reported total cost, and no legal completion
    from any predefined start node costs less; the start node costs nothing. *)
Theorem solve_cost_minimal binary_string r :
  solve iter_set binary_string = Solved r →
  (start_node r ∈ INITIAL_NODES
   ∧ completion (steps_of binary_string) (start_node r) ∅ 0
       (best_path r) (extra_transitions_used r) (extra_node r)
   ∧ extra_cost r = path_cost (best_path r))
  ∧ ∀ start path ext' count',
      start ∈ INITIAL_NODES →
      completion (steps_of binary_string) start ∅ 0 path ext' count' →
      extra_cost r ≤ path_cost path.
Proof.
  intros (_ & Hstart & res & Hres & -> & Hmin)%solve_Solved; [|done].
  simpl.
  destruct (dfs_from_sound iter_set iter_set_enumerates _ _ _ _ _ Hres)
    as [Hc Hcost].
  split; [done|]. intros start path ext' count' Hs Hp.
  destruct (dfs_from_complete iter_set iter_set_enumerates _ _ _ _ _ _ _ Hp)
    as (r' & Hr' & Hle).
  specialize (Hmin _ _ Hs Hr'). lia.
Qed.

(** C2: where [solve] reports a result, running the predefined table extended
    by the returned extra transitions from the returned start node over the
    inputs of the trace takes the transitions of the returned path, and their
    outputs are the required outputs of the trace, step by step; no returned
    extra transition is on a key of the predefined table. *)
Theorem solve_replay binary_string r :
  solve iter_set binary_string = Solved r →
  replay (extra_transitions_used r) (start_node r) (steps_of binary_string).*1
    = Some (run_of (best_path r))
  ∧ (run_of (best_path r)).*2 = (steps_of binary_string).*2
  ∧ ext_fresh (extra_transitions_used r).
Proof.
  intros (_ & Hstart & res & Hres & -> & _)%solve_Solved; [|done].
  simpl.
  destruct (dfs_from_sound iter_set iter_set_enumerates _ _ _ _ _ Hres)
    as [Hc _].
  destruct (completion_ext _ _ _ _ _ _ _ Hc ext_fresh_empty) as [_ Hfresh].
  destruct (completion_replay _ _ _ _ _ _ _ Hc ext_fresh_empty (r_et res))
    as (Hrun & Hout & _); [done|done|].
  split_and!; [done| |done]. unfold run_of. by rewrite <-list_fmap_compose.
Qed.

(** C3, as amended: [solve] reports a result on every trace whose length is
    a multiple of 3, because making a new node is a way on at every step
    where the current node has no transition yet on the input, neither
    predefined nor extra, and only there: for every first step one of the
    predefined start nodes is such a node, and so is a new node at the step
    that follows its making, whatever the input, so that the search goes on
    from it to a result. *)
Theorem solve_finds_completion :
  (∀ binary_string,
     String.length binary_string `mod` 3 = 0 →
     ∃ r, solve iter_set binary_string = Solved r)
  ∧ (∀ inp req_out node (ext : extmap) count,
       Move 2 (PathEntry node inp req_out (new_node_label count) true true)
         (<[(node, inp) := (new_node_label count, req_out)]> ext) (count + 1)
         ∈ moves iter_set (inp, req_out) node ext count
       ↔ defined_lookup node inp = None ∧ ext !! (node, inp) = None)
  ∧ (∀ inp, ∃ start,
       start ∈ INITIAL_NODES
       ∧ defined_lookup start inp = None
       ∧ (∅ : extmap) !! (start, inp) = None)
  ∧ ∀ steps inp req_out rest node (ext : extmap) count,
      visited iter_set steps ((inp, req_out) :: rest) node ext count →
      defined_lookup node inp = None →
      ext !! (node, inp) = None →
      (∀ inp',
         defined_lookup (new_node_label count) inp' = None
         ∧ <[(node, inp) := (new_node_label count, req_out)]> ext
             !! (new_node_label count, inp') = None)
      ∧ is_Some (dfs_from iter_set rest (new_node_label count)
                   (<[(node, inp) := (new_node_label count, req_out)]> ext)
                   (count + 1)).
Proof.
  split_and!.
  - intros s. by apply solve_total.
  - intros inp req_out node ext count. rewrite elem_of_moves. split.
    + intros [(dest & _ & [=])|[(dest & _ & [=])|[(_ & _ & dest & _ & [=])|H]]].
      by destruct H as (? & ? & _).
    + intros [Hd He]. by right; right; right.
  - intros inp. destruct (decide (inp = "01")) as [->|Hne].
    + exists "S2". split_and!; [|apply defined_lookup_S2|apply lookup_empty].
      apply elem_of_INITIAL_NODES. tauto.
    + exists "S1". split_and!; [|by apply defined_lookup_S1|apply lookup_empty].
      apply elem_of_INITIAL_NODES. tauto.
  - intros steps inp req_out rest node ext count Hv Hd He.
    destruct (visited_known _ _ _ _ _ _ iter_set_enumerates Hv) as [Hk _].
    split.
    + intros inp'. by apply new_node_no_transition.
    + apply dfs_from_open; [by apply new_node_known|].
      destruct rest as [|[inp' req_out'] rest']; [done|].
      by apply new_node_no_transition.
Qed.

(** C4: where [solve] reports a result, the total cost is the number of path
    entries tagged as added transitions plus the number of new nodes; the
    new nodes are as many as the entries tagged as making one, and each such
    entry is also tagged as an added transition. *)
Theorem solve_cost_breakdown binary_string r :
  solve iter_set binary_string = Solved r →
  extra_cost r = extra_path r + extra_node r
  ∧ extra_path r = added_transitions (best_path r)
  ∧ extra_node r = synthesized_states (best_path r)
  ∧ Forall (λ e, pe_new e = true → pe_extra e = true) (best_path r).
Proof.
  intros (_ & Hstart & res & Hres & -> & _)%solve_Solved; [|done].
  simpl.
  destruct (dfs_from_sound iter_set iter_set_enumerates _ _ _ _ _ Hres)
    as [Hc Hcost].
  pose proof (completion_count _ _ _ _ _ _ _ Hc) as Hn. simpl in Hn.
  split_and!; [|done|done|by eapply completion_new_extra].
  rewrite Hcost, Hn. done.
Qed.

(** C5: at every search node that [solve] reaches, no extra transition is on
    a key of the predefined table; every recursive call from it keeps all
    the extra transitions as they are, and a call that adds one adds it on
    the current node and input only where neither the predefined table nor
    the extra transitions had an entry. *)
Theorem extensions_never_overwrite steps rest node ext count :
  visited iter_set steps rest node ext count →
  ext_fresh ext
  ∧ ∀ inp req_out rest' m,
      rest = (inp, req_out) :: rest' →
      m ∈ moves iter_set (inp, req_out) node ext count →
      ext ⊆ m_ext m
      ∧ if pe_extra (m_entry m)
        then defined_lookup node inp = None ∧ ext !! (node, inp) = None
             ∧ m_ext m = <[(node, inp) := (pe_dest (m_entry m), req_out)]> ext
        else m_ext m = ext.
Proof.
  intros Hv.
  assert (Hmoves : ∀ inp req_out node (ext : extmap) count m,
    m ∈ moves iter_set (inp, req_out) node ext count →
    ext ⊆ m_ext m
    ∧ if pe_extra (m_entry m)
      then defined_lookup node inp = None ∧ ext !! (node, inp) = None
           ∧ m_ext m = <[(node, inp) := (pe_dest (m_entry m), req_out)]> ext
      else m_ext m = ext).
  { clear. intros inp req_out node ext count m.
    rewrite elem_of_moves.
    intros [(dest & _ & ->)|[(dest & _ & ->)|[(Hd & He & dest & _ & ->)|(Hd & He & ->)]]];
      simpl; (split; [|done]); try done; by apply insert_subseteq. }
  split.
  - induction Hv as [start _|[inp req_out] rest node ext count m _ IH Hm].
    + apply ext_fresh_empty.
    + destruct (Hmoves _ _ _ _ _ _ Hm) as [_ H].
      destruct (pe_extra (m_entry m)).
      * destruct H as (Hd & _ & ->). by apply ext_fresh_insert.
      * by rewrite H.
  - intros inp req_out rest' m _. apply Hmoves.
Qed.

(** C9: on the empty trace the search returns cost 0 and the empty path from
    every predefined start node, and [solve] reports cost 0 and the empty
    path, from one of them. *)
Theorem solve_empty_trace :
  (∀ start, start ∈ INITIAL_NODES →
     dfs iter_set (steps_of "") 0 start ∅ 0 = Some (DfsResult 0 [] ∅ 0))
  ∧ ∃ start, start ∈ INITIAL_NODES
      ∧ solve iter_set "" = Solved (Report 0 0 0 [] ∅ start).
Proof.
  split; [done|].
  destruct (solve_total iter_set iter_set_enumerates "") as [r Hr]; [done|].
  pose proof Hr as (_ & Hstart & res & Hres & Hrep & _)%solve_Solved; [|done].
  injection Hres as <-. exists (start_node r). split; [done|].
  by rewrite Hr, Hrep.
Qed.

(** C10: where [solve] reports a result, the path has one entry for each
    step of the trace, its first entry leaves the reported start node, and
    each entry leaves the node that the entry before it reaches. *)
Theorem solve_path_shape binary_string r :
  solve iter_set binary_string = Solved r →
  length (best_path r) = String.length binary_string / 3
  ∧ (∀ e, best_path r !! 0 = Some e → pe_from e = start_node r)
  ∧ ∀ i e1 e2,
      best_path r !! i = Some e1 → best_path r !! (i + 1) = Some e2 →
      pe_dest e1 = pe_from e2.
Proof.
  intros (_ & Hstart & res & Hres & -> & _)%solve_Solved; [|done].
  simpl.
  destruct (dfs_from_sound iter_set iter_set_enumerates _ _ _ _ _ Hres)
    as [Hc _].
  split.
  - by rewrite (completion_length _ _ _ _ _ _ _ Hc), length_steps_of.
  - by apply chained_lookup, (completion_chained _ _ _ _ _ _ _ Hc).
Qed.

End Claims.

(** C6, as amended: among the recursive calls of a step, the search keeps the
    first cheapest one in the order in which it makes them (a predefined or
    reused transition, then the available nodes in the order in which their
    set is visited, then the new node), and [solve] the first cheapest
    start node in the order in which the set of initial nodes is visited.
    Two runs that visit sets in different orders report the same cost. *)
Theorem ties_go_to_first_tried iter1 iter2 binary_string r1 r2 :
  (∀ X, iter1 X ≡ₚ elements X) →
  (∀ X, iter2 X ≡ₚ elements X) →
  solve iter1 binary_string = Solved r1 →
  solve iter2 binary_string = Solved r2 →
  extra_cost r1 = extra_cost r2
  ∧ (∃ l1 l2, iter1 INITIAL_NODES = l1 ++ start_node r1 :: l2
       ∧ ∀ start res, start ∈ l1 →
           dfs iter1 (steps_of binary_string) 0 start ∅ 0 = Some res →
           extra_cost r1 < r_cost res)
  ∧ ∀ step rest node ext count r,
      dfs_from iter1 (step :: rest) node ext count = Some r →
      ∃ l1 m l2, moves iter1 step node ext count = l1 ++ m :: l2
        ∧ candidate iter1 rest m = Some r
        ∧ (∀ m' a, m' ∈ l1 → candidate iter1 rest m' = Some a →
             r_cost r < r_cost a)
        ∧ (∀ m' a, m' ∈ l2 → candidate iter1 rest m' = Some a →
             r_cost r ≤ r_cost a).
Proof.
  intros H1 H2 Hs1 Hs2. split_and!.
  - exact (solve_cost_unique iter1 iter2 _ _ _ H1 H2 Hs1 Hs2).
  - unfold solve in Hs1. case_decide; [done|].
    destruct (start_loop iter1 (steps_of binary_string)) as [[res start]|] eqn:Hl;
      [|done].
    injection Hs1 as <-. simpl. unfold start_loop in Hl.
    apply (select_first (λ a : dfs_result * string, r_cost a.1)
             (λ start, (λ res, (res, start))
                         <$> dfs_from iter1 (steps_of binary_string) start ∅ 0))
      in Hl as (l1 & x & l2 & Hsplit & Hx & Hl1 & _); [|apply start_loop_step].
    destruct (dfs_from iter1 (steps_of binary_string) x ∅ 0) as [rx|] eqn:Hrx;
      [|done].
    injection Hx as <- <-. exists l1, l2. split; [done|].
    intros start' res' Hin Hres'. unfold dfs in Hres'. rewrite drop_0 in Hres'.
    apply (Hl1 start' (res', start') Hin). by rewrite Hres'.
  - intros step rest node ext count r. rewrite dfs_from_moves.
    apply (select_first r_cost (candidate iter1 rest)), consider_candidate.
Qed.

(** C7: [solve] fails with the invalid-length error exactly when the length
    of its input is not a multiple of 3; it then fails the same way whatever
    the sets and the cache of the search would be, and reports nothing. *)
Theorem solve_invalid_length iter_set binary_string :
  ((∃ msg, solve iter_set binary_string = ValueError msg)
   ↔ String.length binary_string `mod` 3 ≠ 0)
  ∧ (String.length binary_string `mod` 3 ≠ 0 →
     ∀ iter_set',
       solve iter_set' binary_string
         = ValueError "Input length must be a multiple of 3"
       ∧ solve_cached iter_set' binary_string
         = ValueError "Input length must be a multiple of 3").
Proof.
  split.
  - unfold solve. case_decide as Hlen.
    + split; [done|]. by eexists.
    + split; [|done]. intros [msg H].
      by destruct (start_loop iter_set (steps_of binary_string)) as [[res start]|].
  - intros Hlen iter_set'. rewrite solve_cached_correct. unfold solve.
    by rewrite decide_True.
Qed.

(** C8: two runs of [solve] on a trace whose length is a multiple of 3, each
    with a cache that starts empty, report the same cost, in whatever order
    each run visits its sets; the cache does not change what a run reports. *)
Theorem solve_twice_same_cost iter1 iter2 binary_string :
  (∀ X, iter1 X ≡ₚ elements X) →
  (∀ X, iter2 X ≡ₚ elements X) →
  String.length binary_string `mod` 3 = 0 →
  ∃ r1 r2,
    solve_cached iter1 binary_string = Solved r1
    ∧ solve_cached iter2 binary_string = Solved r2
    ∧ extra_cost r1 = extra_cost r2
    ∧ solve_cached iter1 binary_string = solve iter1 binary_string
    ∧ solve_cached iter2 binary_string = solve iter2 binary_string.
Proof.
  intros H1 H2 Hlen.
  destruct (solve_total iter1 H1 binary_string Hlen) as [r1 Hr1].
  destruct (solve_total iter2 H2 binary_string Hlen) as [r2 Hr2].
  exists r1, r2. rewrite !solve_cached_correct.
  split_and!; [done|done| |done|done].
  exact (solve_cost_unique iter1 iter2 _ _ _ H1 H2 Hr1 Hr2).
Qed.

(** * Worked instances *)

(** On ["010"] the search from [S0] has no way on: [S0] has the predefined
    transition [01/1], whose output is not the required [0], so nothing may
    be added on [(S0, 01)], a new node included. *)
Lemma no_way_on_from_S0 :
  (∀ X, ascending X ≡ₚ elements X)
  ∧ visited ascending (steps_of "010") (steps_of "010") "S0" ∅ 0
  ∧ defined_lookup "S0" "01" = Some ("S1", "1")
  ∧ moves ascending ("01", "0") "S0" ∅ 0 = []
  ∧ dfs ascending (steps_of "010") 0 "S0" ∅ 0 = None.
Proof.
  split_and!; [exact ascending_enumerates| |reflexivity..].
  apply visited_start. apply (list_elem_of_lookup_2 _ 0). reflexivity.
Qed.

(** A new node can be without a way on too, once it has a transition: on
    ["000000001"] the search reaches [N1] with the extra transition
    [N1 --(00/0)--> N1] at a step that requires [00/1]. *)
Example no_way_on_from_N1 :
  let ext1 : extmap := <[("S0", "00") := ("N1", "0")]> ∅ in
  let ext2 : extmap := <[("N1", "00") := ("N1", "0")]> ext1 in
  visited ascending (steps_of "000000001") [("00", "1")] "N1" ext2 1
  ∧ ext2 !! ("N1", "00") = Some ("N1", "0")
  ∧ moves ascending ("00", "1") "N1" ext2 1 = []
  ∧ dfs_from ascending [("00", "1")] "N1" ext2 1 = None.
Proof.
  intros ext1 ext2. split_and!; [|reflexivity..].
  assert (H0 : visited ascending (steps_of "000000001")
                 [("00", "0"); ("00", "0"); ("00", "1")] "S0" ∅ 0).
  { apply (visited_start ascending (steps_of "000000001") "S0").
    apply (list_elem_of_lookup_2 _ 0). reflexivity. }
  assert (H1 : visited ascending (steps_of "000000001")
                 [("00", "0"); ("00", "1")] "N1" ext1 1).
  { apply (visited_call ascending _ ("00", "0") _ "S0" ∅ 0
             (Move 2 (PathEntry "S0" "00" "0" "N1" true true) ext1 1) H0).
    apply (list_elem_of_lookup_2 _ 4). reflexivity. }
  apply (visited_call ascending _ ("00", "0") _ "N1" ext1 1
           (Move 1 (PathEntry "N1" "00" "0" "N1" true false) ext2 1) H1).
  apply (list_elem_of_lookup_2 _ 0). reflexivity.
Qed.

(** On ["000"] a run that visits sets by label upwards starts at [S0] and
    one that visits them downwards starts at [S3]: the paths differ. *)
Lemma path_depends_on_set_order :
  (∀ X, ascending X ≡ₚ elements X)
  ∧ (∀ X, descending X ≡ₚ elements X)
  ∧ ∃ r1 r2,
      solve ascending "000" = Solved r1
      ∧ solve descending "000" = Solved r2
      ∧ best_path r1 = [PathEntry "S0" "00" "0" "S0" true false]
      ∧ best_path r2 = [PathEntry "S3" "00" "0" "S3" true false]
      ∧ best_path r1 ≠ best_path r2.
Proof.
  split_and!; [exact ascending_enumerates|exact descending_enumerates|].
  eexists _, _. split_and!; [reflexivity..|]. simpl. by intros [=].
Qed.

Lemma solve_cost_minimal_witness :
  (∀ X, ascending X ≡ₚ elements X)
  ∧ solve ascending "000010" = Solved example_report
  ∧ (start_node example_report ∈ INITIAL_NODES
     ∧ completion (steps_of "000010") (start_node example_report) ∅ 0
         (best_path example_report) (extra_transitions_used example_report)
         (extra_node example_report)
     ∧ extra_cost example_report = path_cost (best_path example_report))
  ∧ ∀ start path ext' count',
      start ∈ INITIAL_NODES →
      completion (steps_of "000010") start ∅ 0 path ext' count' →
      extra_cost example_report ≤ path_cost path.
Proof.
  split; [intros X; apply merge_sort_Permutation|].
  split; [reflexivity|].
  apply (solve_cost_minimal ascending ascending_enumerates "000010" example_report).
  reflexivity.
Defined.

Lemma solve_replay_witness :
  (∀ X, ascending X ≡ₚ elements X)
  ∧ solve ascending "000010" = Solved example_report
  ∧ replay (extra_transitions_used example_report) (start_node example_report)
      (steps_of "000010").*1
    = Some (run_of (best_path example_report))
  ∧ (run_of (best_path example_report)).*2 = (steps_of "000010").*2
  ∧ ext_fresh (extra_transitions_used example_report).
Proof.
  split; [intros X; apply merge_sort_Permutation|].
  split; [reflexivity|].
  apply (solve_replay ascending ascending_enumerates "000010" example_report).
  reflexivity.
Defined.

Lemma solve_finds_completion_witness :
  (∀ X, ascending X ≡ₚ elements X)
  ∧ String.length "010" `mod` 3 = 0
  ∧ (∃ r, solve ascending "010" = Solved r)
  ∧ visited ascending (steps_of "000010") (("00", "0") :: [("01", "0")]) "S0" ∅ 0
  ∧ defined_lookup "S0" "00" = None
  ∧ (∅ : extmap) !! ("S0", "00") = None
  ∧ (∀ inp',
       defined_lookup (new_node_label 0) inp' = None
       ∧ <[("S0", "00") := (new_node_label 0, "0")]> (∅ : extmap)
           !! (new_node_label 0, inp') = None)
  ∧ is_Some (dfs_from ascending [("01", "0")] (new_node_label 0)
               (<[("S0", "00") := (new_node_label 0, "0")]> ∅) (0 + 1)).
Proof.
  assert (Hv : visited ascending (steps_of "000010")
                 (("00", "0") :: [("01", "0")]) "S0" ∅ 0).
  { apply (visited_start ascending (steps_of "000010") "S0").
    apply (list_elem_of_lookup_2 _ 0). reflexivity. }
  split; [intros X; apply merge_sort_Permutation|].
  split; [reflexivity|].
  split.
  { exact (proj1 (solve_finds_completion ascending ascending_enumerates)
             "010" eq_refl). }
  split; [exact Hv|]. split; [reflexivity|]. split; [reflexivity|].
  exact (proj2 (proj2 (proj2
           (solve_finds_completion ascending ascending_enumerates)))
           (steps_of "000010") "00" "0" [("01", "0")] "S0" ∅ 0
           Hv eq_refl eq_refl).
Defined.

Lemma solve_cost_breakdown_witness :
  (∀ X, ascending X ≡ₚ elements X)
  ∧ solve ascending "000010" = Solved example_report
  ∧ extra_cost example_report
    = extra_path example_report + extra_node example_report
  ∧ extra_path example_report = added_transitions (best_path example_report)
  ∧ extra_node example_report = synthesized_states (best_path example_report)
  ∧ Forall (λ e, pe_new e = true → pe_extra e = true) (best_path example_report).
Proof.
  split; [intros X; apply merge_sort_Permutation|].
  split; [reflexivity|].
  apply (solve_cost_breakdown ascending ascending_enumerates "000010" example_report).
  reflexivity.
Defined.

Lemma extensions_never_overwrite_witness :
  visited ascending (steps_of "000010") (steps_of "000010") "S0" ∅ 0
  ∧ ext_fresh ∅
  ∧ ∀ inp req_out rest' m,
      steps_of "000010" = (inp, req_out) :: rest' →
      m ∈ moves ascending (inp, req_out) "S0" ∅ 0 →
      ∅ ⊆ m_ext m
      ∧ if pe_extra (m_entry m)
        then defined_lookup "S0" inp = None
             ∧ (∅ : extmap) !! ("S0", inp) = None
             ∧ m_ext m = <[("S0", inp) := (pe_dest (m_entry m), req_out)]> ∅
        else m_ext m = ∅.
Proof.
  assert (H : visited ascending (steps_of "000010") (steps_of "000010") "S0" ∅ 0).
  { apply visited_start. apply (list_elem_of_lookup_2 _ 0). reflexivity. }
  split; [exact H|].
  exact (extensions_never_overwrite ascending _ _ _ _ _ H).
Defined.

Lemma ties_go_to_first_tried_witness :
  (∀ X, ascending X ≡ₚ elements X)
  ∧ (∀ X, descending X ≡ₚ elements X)
  ∧ solve ascending "000010" = Solved example_report
  ∧ ∃ r2, solve descending "000010" = Solved r2
      ∧ extra_cost example_report = extra_cost r2.
Proof.
  split; [intros X; apply merge_sort_Permutation|].
  split; [exact descending_enumerates|].
  split; [reflexivity|].
  eexists. split; [reflexivity|].
  eapply (ties_go_to_first_tried ascending descending "000010");
    [intros X; apply merge_sort_Permutation|exact descending_enumerates
    |reflexivity|reflexivity].
Defined.

Lemma solve_invalid_length_witness :
  String.length "01" `mod` 3 ≠ 0
  ∧ solve ascending "01" = ValueError "Input length must be a multiple of 3"
  ∧ solve_cached descending "01"
    = ValueError "Input length must be a multiple of 3".
Proof.
  assert (H : String.length "01" `mod` 3 ≠ 0) by (simpl; lia).
  split; [exact H|].
  split.
  - exact (proj1 (proj2 (solve_invalid_length ascending "01") H ascending)).
  - exact (proj2 (proj2 (solve_invalid_length ascending "01") H descending)).
Defined.

Lemma solve_twice_same_cost_witness :
  (∀ X, ascending X ≡ₚ elements X)
  ∧ (∀ X, descending X ≡ₚ elements X)
  ∧ String.length "000010" `mod` 3 = 0
  ∧ ∃ r1 r2,
      solve_cached ascending "000010" = Solved r1
      ∧ solve_cached descending "000010" = Solved r2
      ∧ extra_cost r1 = extra_cost r2
      ∧ solve_cached ascending "000010" = solve ascending "000010"
      ∧ solve_cached descending "000010" = solve descending "000010".
Proof.
  split; [intros X; apply merge_sort_Permutation|].
  split; [exact descending_enumerates|].
  split; [reflexivity|].
  apply (solve_twice_same_cost ascending descending);
    [intros X; apply merge_sort_Permutation|exact descending_enumerates
    |reflexivity].
Defined.

Lemma solve_empty_trace_witness :
  (∀ X, ascending X ≡ₚ elements X)
  ∧ (∀ start, start ∈ INITIAL_NODES →
       dfs ascending (steps_of "") 0 start ∅ 0 = Some (DfsResult 0 [] ∅ 0))
  ∧ ∃ start, start ∈ INITIAL_NODES
      ∧ solve ascending "" = Solved (Report 0 0 0 [] ∅ start).
Proof.
  split; [intros X; apply merge_sort_Permutation|].
  apply (solve_empty_trace ascending). intros X; apply merge_sort_Permutation.
Defined.

Lemma solve_path_shape_witness :
  (∀ X, ascending X ≡ₚ elements X)
  ∧ solve ascending "000010" = Solved example_report
  ∧ length (best_path example_report) = String.length "000010" / 3
  ∧ (∀ e, best_path example_report !! 0 = Some e →
       pe_from e = start_node example_report)
  ∧ ∀ i e1 e2,
      best_path example_report !! i = Some e1 →
      best_path example_report !! (i + 1) = Some e2 →
      pe_dest e1 = pe_from e2.
Proof.
  split; [intros X; apply merge_sort_Permutation|].
  split; [reflexivity|].
  apply (solve_path_shape ascending ascending_enumerates "000010" example_report).
  reflexivity.
Defined.

(** * Further properties *)

(** ** Cutting the string into steps *)

Lemma steps_of_cons3 a b c s :
  steps_of (String a (String b (String c s)))
  = (String a (String b ""), String c "") :: steps_of s.
Proof.
  unfold steps_of.
  replace (String.length (String a (String b (String c s))) / 3)
    with (S (String.length s / 3)).
  2:{ cbn [String.length].
      replace (S (S (S (String.length s)))) with (1 * 3 + String.length s) by lia.
      rewrite Nat.div_add_l by lia. lia. }
  rewrite <-cons_seq, fmap_cons. f_equal; [by destruct s|].
  rewrite <-fmap_S_seq, <-list_fmap_compose. apply list_fmap_ext.
  intros _ i _. unfold compose.
  replace (3 * S i) with (S (S (S (3 * i)))) by lia.
  replace (S (S (S (3 * i))) + 2) with (S (S (S (3 * i + 2)))) by lia.
  reflexivity.
Qed.

Lemma steps_of_short s : String.length s < 3 → steps_of s = [].
Proof.
  intros H. unfold steps_of. by rewrite Nat.div_small.
Qed.

Lemma string_ind3 (P : string → Prop) :
  P "" →
  (∀ a b c s, P s → P (String a (String b (String c s)))) →
  ∀ s, String.length s `mod` 3 = 0 → P s.
Proof.
  intros H0 H3 s. remember (String.length s) as n eqn:Hn.
  revert s Hn. induction (lt_wf n) as [n _ IH]. intros s Hn Hmod.
  destruct s as [|a [|b [|c s]]]; simpl in Hn; subst n; try done.
  apply H3, (IH (String.length s)); [lia|done|].
  replace (S (S (S (String.length s)))) with (String.length s + 1 * 3) in Hmod by lia.
  by rewrite Nat.Div0.mod_add in Hmod.
Qed.

(** X1: cutting a string whose length is a multiple of 3 into steps loses
    nothing: the steps joined give the string back, and every step has a
    two-character input and a one-character output. *)
Theorem steps_of_join s :
  String.length s `mod` 3 = 0 →
  join_steps (steps_of s) = s
  ∧ Forall (λ step, String.length step.1 = 2 ∧ String.length step.2 = 1)
      (steps_of s).
Proof.
  revert s. apply string_ind3.
  - done.
  - intros a b c s [IH1 IH2]. rewrite steps_of_cons3. split.
    + cbn [join_steps foldr fst snd String.append]. fold (join_steps (steps_of s)).
      by rewrite IH1.
    + by constructor.
Qed.

(** X2: steps with two-character inputs and one-character outputs, joined
    and cut again, are the same steps. *)
Theorem steps_of_join_steps steps :
  Forall (λ step, String.length step.1 = 2 ∧ String.length step.2 = 1) steps →
  steps_of (join_steps steps) = steps.
Proof.
  induction 1 as [|[inp out] steps [Hi Ho] _ IH]; [done|].
  simpl in Hi, Ho.
  destruct inp as [|a [|b [|]]]; try done.
  destruct out as [|c [|]]; try done.
  change (join_steps ((String a (String b ""), String c "") :: steps))
    with (String a (String b (String c (join_steps steps)))).
  by rewrite steps_of_cons3, IH.
Qed.

Lemma steps_of_app s1 s2 :
  String.length s1 `mod` 3 = 0 →
  steps_of (s1 +:+ s2) = steps_of s1 ++ steps_of s2.
Proof.
  revert s1. apply (string_ind3 (λ s1, steps_of (s1 +:+ s2) = steps_of s1 ++ steps_of s2)).
  - done.
  - intros a b c s IH.
    change (String a (String b (String c s)) +:+ s2)
      with (String a (String b (String c (s +:+ s2)))).
    by rewrite !steps_of_cons3, IH.
Qed.

Lemma completion_prefix rest more node ext count path ext' count' :
  completion (rest ++ more) node ext count path ext' count' →
  ∃ path1 ext1 count1,
    completion rest node ext count path1 ext1 count1
    ∧ path_cost path1 ≤ path_cost path.
Proof.
  revert node ext count path ext' count'.
  induction rest as [|[inp out] rest IH]; intros node ext count path ext' count' H.
  - exists [], ext, count. split; [constructor|]. apply Nat.le_0_l.
  - simpl in H. inversion H; subst;
      match goal with
      | Hc : completion (rest ++ more) _ _ _ _ _ _ |- _ =>
        destruct (IH _ _ _ _ _ _ Hc) as (p1 & e1 & c1 & Hc1 & Hle)
      end;
      eexists _, e1, c1;
      (split;
       [first [by eapply completion_predefined
              |by eapply completion_reused
              |by eapply completion_new_extension
              |by eapply completion_new_state]
       |rewrite !path_cost_cons; simpl; lia]).
Qed.

(** X15: more steps never cost less: the cost reported for a trace with
    further steps appended is at least the cost reported for the trace. *)
Theorem solve_prefix_cost iter_set s1 s2 r1 r2 :
  (∀ X, iter_set X ≡ₚ elements X) →
  String.length s1 `mod` 3 = 0 →
  solve iter_set s1 = Solved r1 →
  solve iter_set (s1 +:+ s2) = Solved r2 →
  extra_cost r1 ≤ extra_cost r2.
Proof.
  intros Hit Hlen H1 H2.
  apply (solve_Solved iter_set Hit) in H1 as (_ & Hs1 & res1 & Hr1 & -> & Hmin1).
  apply (solve_Solved iter_set Hit) in H2 as (_ & Hs2 & res2 & Hr2 & -> & _).
  simpl. rewrite steps_of_app in Hr2 by done.
  destruct (dfs_from_sound iter_set Hit _ _ _ _ _ Hr2) as [Hc2 Hcost2].
  destruct (completion_prefix _ _ _ _ _ _ _ _ Hc2) as (p1 & e1 & c1 & Hc1 & Hle).
  destruct (dfs_from_complete iter_set Hit _ _ _ _ _ _ _ Hc1) as (r & Hr & Hle').
  specialize (Hmin1 _ _ Hs2 Hr). lia.
Qed.

(** ** Steps that have a transition already *)

(** X3: where the current node has a transition on the input already,
    predefined or extra, the search takes it and nothing else when its
    output is the required one, and returns no result when it is not. *)
Theorem dfs_from_existing (iter_set : gset string → list string)
    (inp req_out : string)
    (rest : list (string * string)) (node : string) (ext : extmap) (count : nat)
    (dest out : string) :
  ext_fresh ext →
  extended_lookup ext node inp = Some (dest, out) →
  dfs_from iter_set ((inp, req_out) :: rest) node ext count =
  if decide (out = req_out)
  then candidate_of 0 (PathEntry node inp req_out dest false false)
         <$> dfs_from iter_set rest dest ext count
  else None.
Proof.
  intros Hf Hl. rewrite dfs_from_moves. unfold moves, extended_lookup in *.
  destruct (defined_lookup node inp) as [[d o]|] eqn:Hd.
  - injection Hl as -> ->.
    destruct (ext !! (node, inp)) as [t|] eqn:He.
    { apply Hf in He. simpl in He. congruence. }
    destruct (decide (out = req_out)) as [->|Hne];
      (destruct (decide (_ ∧ _)) as [[? ?]|_]; [congruence|]); [|done].
    simpl. unfold consider.
    by destruct (dfs_from iter_set rest dest ext count).
  - rewrite Hl.
    destruct (decide (out = req_out)) as [->|Hne];
      (destruct (decide (_ ∧ _)) as [[? ?]|_]; [congruence|]); [|done].
    simpl. unfold consider.
    by destruct (dfs_from iter_set rest dest ext count).
Qed.

(** ** The extra transitions returned *)

Lemma added_transitions_cons e path :
  added_transitions (e :: path)
  = (if pe_extra e then 1 else 0) + added_transitions path.
Proof.
  unfold added_transitions. rewrite filter_cons.
  destruct (pe_extra e); case_decide; done.
Qed.

Lemma synthesized_states_cons e path :
  synthesized_states (e :: path)
  = (if pe_new e then 1 else 0) + synthesized_states path.
Proof.
  unfold synthesized_states. rewrite filter_cons.
  destruct (pe_new e); case_decide; done.
Qed.

Lemma completion_added rest node ext count path ext' count' :
  completion rest node ext count path ext' count' →
  size ext' = size ext + added_transitions path
  ∧ ∀ key t, ext' !! key = Some t ↔
      ext !! key = Some t
      ∨ ∃ e, e ∈ path ∧ pe_extra e = true
          ∧ key = (pe_from e, pe_inp e) ∧ t = (pe_dest e, pe_out e).
Proof.
  assert (Hskip : ∀ (ext ext' : extmap) e path,
    pe_extra e = false →
    (∀ key t, ext' !! key = Some t ↔
       ext !! key = Some t
       ∨ ∃ e, e ∈ path ∧ pe_extra e = true
           ∧ key = (pe_from e, pe_inp e) ∧ t = (pe_dest e, pe_out e)) →
    ∀ key t, ext' !! key = Some t ↔
       ext !! key = Some t
       ∨ ∃ e', e' ∈ e :: path ∧ pe_extra e' = true
           ∧ key = (pe_from e', pe_inp e') ∧ t = (pe_dest e', pe_out e')).
  { intros ext0 ext0' e path0 He IH key t. rewrite IH. split.
    - intros [H|(e' & Hin & H)]; [by left|]. right. exists e'.
      split; [by right|done].
    - intros [H|(e' & Hin & Hx & H)]; [by left|]. right. exists e'.
      apply elem_of_cons in Hin as [->|Hin]; [congruence|done]. }
  assert (Hadd : ∀ (ext ext' : extmap) e path,
    pe_extra e = true →
    ext !! (pe_from e, pe_inp e) = None →
    (∀ key t, ext' !! key = Some t ↔
       <[(pe_from e, pe_inp e) := (pe_dest e, pe_out e)]> ext !! key = Some t
       ∨ ∃ e, e ∈ path ∧ pe_extra e = true
           ∧ key = (pe_from e, pe_inp e) ∧ t = (pe_dest e, pe_out e)) →
    ∀ key t, ext' !! key = Some t ↔
       ext !! key = Some t
       ∨ ∃ e', e' ∈ e :: path ∧ pe_extra e' = true
           ∧ key = (pe_from e', pe_inp e') ∧ t = (pe_dest e', pe_out e')).
  { intros ext0 ext0' e path0 He Hnone IH key t. rewrite IH. split.
    - intros [H|(e' & Hin & H)].
      + destruct (decide ((pe_from e, pe_inp e) = key)) as [<-|Hne].
        * rewrite lookup_insert_eq in H. injection H as <-. right. exists e.
          split; [by left|done].
        * rewrite lookup_insert_ne in H by done. by left.
      + right. exists e'. split; [by right|done].
    - intros [H|(e' & Hin & Hx & Hk & Ht)].
      + left. rewrite lookup_insert_ne; [done|]. intros <-. congruence.
      + apply elem_of_cons in Hin as [->|Hin].
        * left. subst. apply lookup_insert_eq.
        * right. by exists e'. }
  induction 1 as [|inp out rest state ext count dest path ext' count' Hd Hc [IHs IHl]
                  |inp out rest state ext count dest path ext' count' He Hc [IHs IHl]
                  |inp out rest state ext count dest path ext' count' Hd He _ Hc [IHs IHl]
                  |inp out rest state ext count path ext' count' Hd He Hc [IHs IHl]];
    rewrite ?added_transitions_cons; cbn [pe_extra].
  - split; [done|]. intros key t. split; [by left|].
    intros [H|(e & Hin & _)]; [done|]. by apply elem_of_nil in Hin.
  - split; [lia|]. by apply Hskip.
  - split; [lia|]. by apply Hskip.
  - rewrite map_size_insert_None in IHs by done. split; [lia|].
    by apply Hadd.
  - rewrite map_size_insert_None in IHs by done. split; [lia|].
    by apply Hadd.
Qed.

(** X4: the reported extra transitions are those of the path entries tagged
    extra, one for each: the dictionary has as many entries as the printed
    Extra Path. *)
Theorem solve_extra_transitions iter_set binary_string r :
  (∀ X, iter_set X ≡ₚ elements X) →
  solve iter_set binary_string = Solved r →
  size (extra_transitions_used r) = extra_path r
  ∧ ∀ key t, extra_transitions_used r !! key = Some t ↔
      ∃ e, e ∈ best_path r ∧ pe_extra e = true
        ∧ key = (pe_from e, pe_inp e) ∧ t = (pe_dest e, pe_out e).
Proof.
  intros Hit (_ & Hstart & res & Hres & -> & _)%solve_Solved; [|done].
  simpl.
  destruct (dfs_from_sound iter_set Hit _ _ _ _ _ Hres) as [Hc _].
  destruct (completion_added _ _ _ _ _ _ _ Hc) as [Hsize Hl].
  split; [by rewrite Hsize, map_size_empty|].
  intros key t. rewrite Hl, lookup_empty. split; [|by right].
  by intros [?|?].
Qed.

(** ** Traces that the predefined table accepts *)

Lemma replay_predefined_completion (rest : list (string * string))
    (node : string) (run : list (string * string * string)) (ext : extmap)
    (count : nat) :
  replay ∅ node rest.*1 = Some run →
  run.*2 = rest.*2 →
  ∃ path, completion rest node ext count path ext count ∧ path_cost path = 0.
Proof.
  revert node run. induction rest as [|[inp out] rest IH]; intros node run.
  - intros _ _. exists []. split; [constructor|done].
  - cbn [replay fmap list_fmap fst snd]. unfold extended_lookup.
    rewrite lookup_empty.
    destruct (defined_lookup node inp) as [[dest o]|] eqn:Hd; [|done].
    destruct (replay ∅ dest rest.*1) as [run'|] eqn:Hr; [|done].
    intros [= <-]. cbn [fmap list_fmap snd]. intros [= -> Hout].
    destruct (IH dest run' Hr Hout) as (path & Hc & Hcost).
    exists (PathEntry node inp out dest false false :: path). split.
    + by apply completion_predefined.
    + by rewrite path_cost_cons.
Qed.

(** X5: [solve] reports cost 0 exactly when the predefined table alone, from
    one of its nodes, takes the inputs of the trace to the required outputs;
    it then reports no extra path, no extra node and no extra transition. *)
Theorem solve_cost_zero iter_set binary_string r :
  (∀ X, iter_set X ≡ₚ elements X) →
  solve iter_set binary_string = Solved r →
  (extra_cost r = 0 ↔
   ∃ start run, start ∈ INITIAL_NODES
     ∧ replay ∅ start (steps_of binary_string).*1 = Some run
     ∧ run.*2 = (steps_of binary_string).*2)
  ∧ (extra_cost r = 0 →
     extra_path r = 0 ∧ extra_node r = 0 ∧ extra_transitions_used r = ∅).
Proof.
  intros Hit (_ & Hstart & res & Hres & -> & Hmin)%solve_Solved; [|done].
  simpl.
  destruct (dfs_from_sound iter_set Hit _ _ _ _ _ Hres) as [Hc Hcost].
  destruct (completion_added _ _ _ _ _ _ _ Hc) as [Hsize _].
  pose proof (completion_count _ _ _ _ _ _ _ Hc) as Hn.
  assert (Hzero : r_cost res = 0 →
    added_transitions (r_path res) = 0 ∧ r_new res = 0 ∧ r_et res = ∅).
  { intros H0. rewrite Hcost in H0. unfold path_cost in H0.
    split_and!; [lia|lia|]. apply map_size_empty_inv.
    rewrite Hsize, map_size_empty. lia. }
  split; [|done]. split.
  - intros H0. destruct (Hzero H0) as (_ & _ & Het).
    destruct (completion_replay _ _ _ _ _ _ _ Hc ext_fresh_empty ∅)
      as (Hrun & Hout & _); [by rewrite Het|apply ext_fresh_empty|].
    exists (start_node r), (run_of (r_path res)). split_and!; [done|done|].
    unfold run_of. by rewrite <-list_fmap_compose.
  - intros (start & run & Hs & Hrun & Hout).
    destruct (replay_predefined_completion _ _ _ ∅ 0 Hrun Hout)
      as (path & Hp & Hp0).
    destruct (dfs_from_complete iter_set Hit _ _ _ _ _ _ _ Hp) as (r' & Hr' & Hle).
    specialize (Hmin _ _ Hs Hr'). lia.
Qed.

(** ** Bounds *)

Lemma synthesized_le_added path :
  Forall (λ e, pe_new e = true → pe_extra e = true) path →
  synthesized_states path ≤ added_transitions path.
Proof.
  induction 1 as [|e path He _ IH]; [done|].
  rewrite synthesized_states_cons, added_transitions_cons.
  destruct (pe_new e); [rewrite He by done|destruct (pe_extra e)];
    simpl; lia.
Qed.

(** X6: a report has no more new nodes than added transitions, no more added
    transitions than steps, and a cost of at most two per step. *)
Theorem solve_bounds iter_set binary_string r :
  (∀ X, iter_set X ≡ₚ elements X) →
  solve iter_set binary_string = Solved r →
  extra_node r ≤ extra_path r
  ∧ extra_path r ≤ String.length binary_string / 3
  ∧ extra_cost r ≤ 2 * (String.length binary_string / 3).
Proof.
  intros Hit (_ & Hstart & res & Hres & -> & _)%solve_Solved; [|done].
  cbn [extra_cost extra_path extra_node].
  destruct (dfs_from_sound iter_set Hit _ _ _ _ _ Hres) as [Hc Hcost].
  pose proof (completion_count _ _ _ _ _ _ _ Hc) as Hn. simpl in Hn.
  pose proof (completion_length _ _ _ _ _ _ _ Hc) as Hlen.
  rewrite length_steps_of in Hlen.
  assert (Hle : synthesized_states (r_path res) ≤ added_transitions (r_path res))
    by (eapply synthesized_le_added, completion_new_extra; exact Hc).
  assert (Hle' : added_transitions (r_path res) ≤ length (r_path res))
    by apply length_filter.
  rewrite Hcost, Hn. unfold path_cost.
  set (n := String.length binary_string / 3) in *. lia.
Qed.

(** ** The nodes on the path *)


Lemma known_le count count' node :
  count ≤ count' → known count node → known count' node.
Proof.
  intros Hle [H|(j & Hj & H)]; [by left|]. right. exists j. split; [lia|done].
Qed.

Lemma completion_known rest node ext count path ext' count' :
  completion rest node ext count path ext' count' →
  nodes_known node ext count →
  count ≤ count'
  ∧ Forall (λ e, known count' (pe_from e) ∧ known count' (pe_dest e)) path.
Proof.
  induction 1 as [|inp out rest state ext count dest path ext' count' Hd Hc IH
                  |inp out rest state ext count dest path ext' count' He Hc IH
                  |inp out rest state ext count dest path ext' count' Hd He Hav Hc IH
                  |inp out rest state ext count path ext' count' Hd He Hc IH];
    intros [Hn Hk].
  - split; [done|constructor].
  - assert (Hdest : known count dest)
      by (left; by apply defined_lookup_Some in Hd as [_ ?]).
    destruct IH as [Hle Hall]; [by split|].
    split; [done|]. constructor; [|done]. split; by eapply known_le.
  - assert (Hdest : known count dest) by (by destruct (Hk _ _ He)).
    destruct IH as [Hle Hall]; [by split|].
    split; [done|]. constructor; [|done]. split; by eapply known_le.
  - assert (Hdest : known count dest).
    { destruct Hav as [H|(key & o & H)]; [by left|]. by destruct (Hk _ _ H). }
    destruct IH as [Hle Hall].
    { split; [done|]. intros key t H.
      destruct (decide ((state, inp) = key)) as [<-|Hne].
      - rewrite lookup_insert_eq in H. by injection H as <-.
      - rewrite lookup_insert_ne in H by done. by apply Hk in H. }
    split; [done|]. constructor; [|done]. split; by eapply known_le.
  - destruct IH as [Hle Hall]; [by apply new_node_known|].
    split; [lia|]. constructor; [|done]. simpl. split.
    + eapply known_le; [|done]. lia.
    + right. exists count. split; [lia|done].
Qed.


(** ** The path as a function *)

Lemma replay_lookup extra node inputs run i t :
  replay extra node inputs = Some run →
  run !! i = Some t →
  ∃ inp, inputs !! i = Some inp
         ∧ extended_lookup extra t.1.1 inp = Some (t.1.2, t.2).
Proof.
  revert node run i. induction inputs as [|inp inputs IH]; intros node run i.
  - intros [= <-]. by rewrite lookup_nil.
  - simpl. destruct (extended_lookup extra node inp) as [[dest out]|] eqn:Hl;
      [|done].
    destruct (replay extra dest inputs) as [run'|] eqn:Hr; [|done].
    intros [= <-]. destruct i as [|i]; simpl.
    + intros [= <-]. by exists inp.
    + by apply (IH dest).
Qed.

(** X8: every entry of the reported path is the transition that the
    predefined table extended by the reported extra transitions has on its
    node and input; two entries on the same node and input have the same
    destination and output. *)
Theorem solve_path_function iter_set binary_string r :
  (∀ X, iter_set X ≡ₚ elements X) →
  solve iter_set binary_string = Solved r →
  (∀ e, e ∈ best_path r →
     extended_lookup (extra_transitions_used r) (pe_from e) (pe_inp e)
     = Some (pe_dest e, pe_out e))
  ∧ ∀ e1 e2, e1 ∈ best_path r → e2 ∈ best_path r →
      pe_from e1 = pe_from e2 → pe_inp e1 = pe_inp e2 →
      pe_dest e1 = pe_dest e2 ∧ pe_out e1 = pe_out e2.
Proof.
  intros Hit (_ & Hstart & res & Hres & -> & _)%solve_Solved; [|done].
  simpl.
  destruct (dfs_from_sound iter_set Hit _ _ _ _ _ Hres) as [Hc _].
  destruct (completion_ext _ _ _ _ _ _ _ Hc ext_fresh_empty) as [_ Hfresh].
  destruct (completion_replay _ _ _ _ _ _ _ Hc ext_fresh_empty (r_et res))
    as (Hrun & _ & Hinp); [done|done|].
  assert (Hall : ∀ e, e ∈ r_path res →
    extended_lookup (r_et res) (pe_from e) (pe_inp e) = Some (pe_dest e, pe_out e)).
  { intros e (i & Hi)%list_elem_of_lookup.
    destruct (replay_lookup _ _ _ _ i (pe_from e, pe_dest e, pe_out e) Hrun)
      as (inp & Hin & Hl).
    { unfold run_of. by rewrite list_lookup_fmap, Hi. }
    rewrite <-Hinp, list_lookup_fmap, Hi in Hin. by injection Hin as <-. }
  split; [done|]. intros e1 e2 H1 H2 Hf Hi.
  apply Hall in H1, H2. rewrite Hf, Hi, H2 in H1. by injection H1 as -> ->.
Qed.

(** ** What the tags of a path entry say *)

Lemma completion_tags rest node ext count path ext' count' :
  completion rest node ext count path ext' count' →
  ext_fresh ext →
  ∀ i e, path !! i = Some e →
    if pe_extra e
    then defined_lookup (pe_from e) (pe_inp e) = None
         ∧ ext !! (pe_from e, pe_inp e) = None
         ∧ ∀ j e', j < i → path !! j = Some e' →
             (pe_from e', pe_inp e') ≠ (pe_from e, pe_inp e)
    else extended_lookup ext (pe_from e) (pe_inp e) = Some (pe_dest e, pe_out e)
         ∨ ∃ j e', j < i ∧ path !! j = Some e' ∧ pe_extra e' = true
             ∧ pe_from e' = pe_from e ∧ pe_inp e' = pe_inp e
             ∧ pe_dest e' = pe_dest e ∧ pe_out e' = pe_out e.
Proof.
  (* a step that leaves the extra transitions as they are *)
  assert (Hkeep : ∀ (ext : extmap) e0 path,
    pe_extra e0 = false →
    extended_lookup ext (pe_from e0) (pe_inp e0) = Some (pe_dest e0, pe_out e0) →
    (∀ i e, path !! i = Some e →
       if pe_extra e
       then defined_lookup (pe_from e) (pe_inp e) = None
            ∧ ext !! (pe_from e, pe_inp e) = None
            ∧ ∀ j e', j < i → path !! j = Some e' →
                (pe_from e', pe_inp e') ≠ (pe_from e, pe_inp e)
       else extended_lookup ext (pe_from e) (pe_inp e) = Some (pe_dest e, pe_out e)
            ∨ ∃ j e', j < i ∧ path !! j = Some e' ∧ pe_extra e' = true
                ∧ pe_from e' = pe_from e ∧ pe_inp e' = pe_inp e
                ∧ pe_dest e' = pe_dest e ∧ pe_out e' = pe_out e) →
    ∀ i e, (e0 :: path) !! i = Some e →
       if pe_extra e
       then defined_lookup (pe_from e) (pe_inp e) = None
            ∧ ext !! (pe_from e, pe_inp e) = None
            ∧ ∀ j e', j < i → (e0 :: path) !! j = Some e' →
                (pe_from e', pe_inp e') ≠ (pe_from e, pe_inp e)
       else extended_lookup ext (pe_from e) (pe_inp e) = Some (pe_dest e, pe_out e)
            ∨ ∃ j e', j < i ∧ (e0 :: path) !! j = Some e' ∧ pe_extra e' = true
                ∧ pe_from e' = pe_from e ∧ pe_inp e' = pe_inp e
                ∧ pe_dest e' = pe_dest e ∧ pe_out e' = pe_out e).
  { intros ext0 e0 path0 Hx0 Hl0 IH [|i] e; simpl.
    - intros [= <-]. rewrite Hx0. by left.
    - intros Hi. specialize (IH i e Hi). destruct (pe_extra e).
      + destruct IH as (Hd & He & Hbefore). split_and!; [done|done|].
        intros [|j] e' Hj; simpl.
        * intros [= <-] [= Hf Hin]. unfold extended_lookup in Hl0.
          rewrite Hf, Hin, Hd, He in Hl0. done.
        * apply Hbefore. lia.
      + destruct IH as [H|(j & e' & Hj & Hl & H)]; [by left|].
        right. exists (S j), e'. split; [lia|done]. }
  (* a step that adds an extra transition *)
  assert (Hadd : ∀ (ext : extmap) e0 path,
    pe_extra e0 = true →
    defined_lookup (pe_from e0) (pe_inp e0) = None →
    ext !! (pe_from e0, pe_inp e0) = None →
    (∀ i e, path !! i = Some e →
       if pe_extra e
       then defined_lookup (pe_from e) (pe_inp e) = None
            ∧ <[(pe_from e0, pe_inp e0) := (pe_dest e0, pe_out e0)]> ext
                !! (pe_from e, pe_inp e) = None
            ∧ ∀ j e', j < i → path !! j = Some e' →
                (pe_from e', pe_inp e') ≠ (pe_from e, pe_inp e)
       else extended_lookup
              (<[(pe_from e0, pe_inp e0) := (pe_dest e0, pe_out e0)]> ext)
              (pe_from e) (pe_inp e) = Some (pe_dest e, pe_out e)
            ∨ ∃ j e', j < i ∧ path !! j = Some e' ∧ pe_extra e' = true
                ∧ pe_from e' = pe_from e ∧ pe_inp e' = pe_inp e
                ∧ pe_dest e' = pe_dest e ∧ pe_out e' = pe_out e) →
    ∀ i e, (e0 :: path) !! i = Some e →
       if pe_extra e
       then defined_lookup (pe_from e) (pe_inp e) = None
            ∧ ext !! (pe_from e, pe_inp e) = None
            ∧ ∀ j e', j < i → (e0 :: path) !! j = Some e' →
                (pe_from e', pe_inp e') ≠ (pe_from e, pe_inp e)
       else extended_lookup ext (pe_from e) (pe_inp e) = Some (pe_dest e, pe_out e)
            ∨ ∃ j e', j < i ∧ (e0 :: path) !! j = Some e' ∧ pe_extra e' = true
                ∧ pe_from e' = pe_from e ∧ pe_inp e' = pe_inp e
                ∧ pe_dest e' = pe_dest e ∧ pe_out e' = pe_out e).
  { intros ext0 e0 path0 Hx0 Hd0 He0 IH [|i] e; simpl.
    - intros [= <-]. rewrite Hx0. split_and!; [done|done|]. intros j e' Hj. lia.
    - intros Hi. specialize (IH i e Hi). destruct (pe_extra e).
      + destruct IH as (Hd & He & Hbefore).
        apply lookup_insert_None in He as [He Hne]. split_and!; [done|done|].
        intros [|j] e' Hj; simpl.
        * by intros [= <-].
        * apply Hbefore. lia.
      + destruct IH as [H|(j & e' & Hj & Hl & H)].
        * unfold extended_lookup in *.
          destruct (defined_lookup (pe_from e) (pe_inp e)); [by left|].
          apply lookup_insert_Some in H as [[[= Hf Hin] [= Hdst Hout]]|[_ H]];
            [|by left].
          right. exists 0, e0. split_and!; [lia|done..].
        * right. exists (S j), e'. split; [lia|done]. }
  induction 1 as [|inp out rest state ext count dest path ext' count' Hd Hc IH
                  |inp out rest state ext count dest path ext' count' He Hc IH
                  |inp out rest state ext count dest path ext' count' Hd He _ Hc IH
                  |inp out rest state ext count path ext' count' Hd He Hc IH];
    intros Hf.
  - intros i e H. by rewrite lookup_nil in H.
  - apply Hkeep; [done| |by apply IH]. simpl.
    by apply extended_lookup_defined.
  - apply Hkeep; [done| |by apply IH]. simpl.
    by apply extended_lookup_extra.
  - apply Hadd; [done..|]. by apply IH, ext_fresh_insert.
  - apply Hadd; [done..|]. by apply IH, ext_fresh_insert.
Qed.

(** X9: an entry of the reported path tagged extra is on a node and input
    that the predefined table does not have and that no earlier entry is on;
    an entry not tagged extra is a predefined transition or repeats an
    earlier entry tagged extra. *)
Theorem solve_path_tags iter_set binary_string r i e :
  (∀ X, iter_set X ≡ₚ elements X) →
  solve iter_set binary_string = Solved r →
  best_path r !! i = Some e →
  if pe_extra e
  then defined_lookup (pe_from e) (pe_inp e) = None
       ∧ ∀ j e', j < i → best_path r !! j = Some e' →
           (pe_from e', pe_inp e') ≠ (pe_from e, pe_inp e)
  else defined_lookup (pe_from e) (pe_inp e) = Some (pe_dest e, pe_out e)
       ∨ ∃ j e', j < i ∧ best_path r !! j = Some e' ∧ pe_extra e' = true
           ∧ pe_from e' = pe_from e ∧ pe_inp e' = pe_inp e
           ∧ pe_dest e' = pe_dest e ∧ pe_out e' = pe_out e.
Proof.
  intros Hit (_ & Hstart & res & Hres & -> & _)%solve_Solved; [|done].
  simpl. intros Hi.
  destruct (dfs_from_sound iter_set Hit _ _ _ _ _ Hres) as [Hc _].
  pose proof (completion_tags _ _ _ _ _ _ _ Hc ext_fresh_empty i e Hi) as H.
  destruct (pe_extra e).
  - by destruct H as (? & _ & ?).
  - destruct H as [H|H]; [left|by right].
    unfold extended_lookup in H. rewrite lookup_empty in H.
    by destruct (defined_lookup (pe_from e) (pe_inp e)).
Qed.

(** ** The nodes available at a search node *)

Lemma visited_fresh iter_set steps rest node ext count :
  visited iter_set steps rest node ext count → ext_fresh ext.
Proof.
  induction 1 as [start _|[inp req_out] rest node ext count m _ IH Hm].
  - apply ext_fresh_empty.
  - apply elem_of_moves in Hm
      as [(dest & _ & ->)|[(dest & _ & ->)|[(Hd & He & dest & _ & ->)|(Hd & He & ->)]]];
      simpl; try done; by apply ext_fresh_insert.
Qed.

Lemma visited_available_nodes iter_set steps rest node ext count :
  (∀ X, iter_set X ≡ₚ elements X) →
  visited iter_set steps rest node ext count →
  available_nodes ext
  = INITIAL_NODES ∪ list_to_set (new_node_label <$> seq 0 count).
Proof.
  intros Hit Hv. destruct (visited_known _ _ _ _ _ _ Hit Hv) as [[_ Hk] Hall].
  apply set_eq. intros dest.
  rewrite elem_of_available_nodes, elem_of_union, elem_of_list_to_set,
    list_elem_of_fmap. split.
  - intros [H|(key & o & H)]; [by left|].
    destruct (Hk _ _ H) as [_ [Hi|(j & Hj & Hl)]]; [by left|]. right.
    exists j. split; [done|]. apply elem_of_seq. lia.
  - intros [H|(j & -> & Hj)]; [by left|]. right.
    apply elem_of_seq in Hj. apply Hall. lia.
Qed.

Lemma size_INITIAL_NODES : size INITIAL_NODES = 4.
Proof. reflexivity. Qed.

Lemma visited_moves_length iter_set steps inp req_out rest node ext count :
  (∀ X, iter_set X ≡ₚ elements X) →
  visited iter_set steps ((inp, req_out) :: rest) node ext count →
  length (moves iter_set (inp, req_out) node ext count) =
  match extended_lookup ext node inp with
  | Some (_, out) => if decide (out = req_out) then 1 else 0
  | None => 5 + count
  end.
Proof.
  intros Hit Hv. pose proof (visited_fresh _ _ _ _ _ _ Hv) as Hf.
  unfold moves, extended_lookup.
  destruct (defined_lookup node inp) as [[d o]|] eqn:Hd.
  - destruct (ext !! (node, inp)) as [t|] eqn:He.
    { apply Hf in He. simpl in He. congruence. }
    destruct (decide (o = req_out));
      (destruct (decide (_ ∧ _)) as [[? ?]|_]; [congruence|]); done.
  - destruct (ext !! (node, inp)) as [[d o]|] eqn:He.
    + destruct (decide (o = req_out));
        (destruct (decide (_ ∧ _)) as [[? ?]|_]; [congruence|]); done.
    + rewrite decide_True by done. simpl.
      rewrite length_app, length_fmap, Hit. simpl.
      change (length (elements (available_nodes ext)))
        with (size (available_nodes ext)).
      rewrite (visited_available_nodes _ _ _ _ _ _ Hit Hv), size_union.
      * rewrite size_INITIAL_NODES, size_list_to_set, length_fmap, length_seq;
          [lia|].
        apply NoDup_fmap; [apply new_node_label_inj|apply NoDup_seq].
      * intros x Hx (j & -> & _)%elem_of_list_to_set%list_elem_of_fmap.
        by apply new_node_label_not_initial in Hx.
Qed.

(** X10: at every search node that [solve] reaches, the available nodes are
    the initial nodes and the new nodes made so far; where the current node
    has no transition yet on the input the body makes a recursive call for
    each of them and one for a new node, and otherwise at most one. *)
Theorem visited_branching iter_set steps inp req_out rest node ext count :
  (∀ X, iter_set X ≡ₚ elements X) →
  visited iter_set steps ((inp, req_out) :: rest) node ext count →
  available_nodes ext
    = INITIAL_NODES ∪ list_to_set (new_node_label <$> seq 0 count)
  ∧ length (moves iter_set (inp, req_out) node ext count) =
    match extended_lookup ext node inp with
    | Some (_, out) => if decide (out = req_out) then 1 else 0
    | None => 5 + count
    end.
Proof.
  intros Hit Hv. split.
  - exact (visited_available_nodes _ _ _ _ _ _ Hit Hv).
  - exact (visited_moves_length _ _ _ _ _ _ _ _ Hit Hv).
Qed.

(** ** What the cache keeps *)

Section CacheGrowth.
Variable iter_set : gset string → list string.
Variable steps : list (string * string).

Lemma cache_extend (i : nat) (node : string) (ext : extmap) (count : nat)
    (cache : memo) :
  cache_sound iter_set steps cache →
  cache ⊆ <[(i, node, ext, count) := dfs iter_set steps i node ext count]> cache.
Proof.
  intros Hc. destruct (cache !! (i, node, ext, count)) as [res|] eqn:Hl.
  - pose proof (Hc _ _ _ _ _ Hl) as ->. by rewrite insert_id.
  - by apply insert_subseteq.
Qed.

Lemma dfs_cached_fold_grows (rest : list (string * string)) (i : nat)
    (l : list move) (best : option dfs_result) (cache : memo) :
  (∀ node ext count cache,
     cache_sound iter_set steps cache →
     cache_sound iter_set steps
       (dfs_cached iter_set rest (i + 1) node ext count cache).2
     ∧ cache ⊆ (dfs_cached iter_set rest (i + 1) node ext count cache).2) →
  cache_sound iter_set steps cache →
  cache ⊆ (foldl (λ st m,
                    dfs_cached_step (dfs_cached iter_set rest (i + 1))
                      (m_cost m) (m_entry m) (m_ext m) (m_count m) st)
                 (best, cache) l).2.
Proof.
  intros Hcall. revert best cache.
  induction l as [|m l IH]; intros best cache Hc; [done|].
  cbn [foldl].
  destruct (Hcall (pe_dest (m_entry m)) (m_ext m) (m_count m) cache Hc)
    as [Hc' Hsub].
  unfold dfs_cached_step at 2. cbn [fst snd].
  destruct (dfs_cached iter_set rest (i + 1) (pe_dest (m_entry m)) (m_ext m)
              (m_count m) cache) as [res cache'].
  simpl in Hc', Hsub. etrans; [exact Hsub|]. by apply IH.
Qed.

Lemma dfs_cached_grows (rest : list (string * string)) (i : nat)
    (node : string) (ext : extmap) (count : nat) (cache : memo) :
  drop i steps = rest →
  cache_sound iter_set steps cache →
  cache ⊆ (dfs_cached iter_set rest i node ext count cache).2
  ∧ (dfs_cached iter_set rest i node ext count cache).2
      !! (i, node, ext, count)
    = Some (dfs_cached iter_set rest i node ext count cache).1.
Proof.
  revert i node ext count cache.
  induction rest as [|step rest IH]; intros i node ext count cache Hdrop Hc.
  - cbn [dfs_cached].
    destruct (cache !! (i, node, ext, count)) as [res|] eqn:Hl; simpl.
    + done.
    + split; [by apply insert_subseteq|apply lookup_insert_eq].
  - pose proof (dfs_cached_correct iter_set steps (step :: rest) i node ext
                  count cache Hdrop Hc) as [Hres _].
    rewrite dfs_cached_cons in *.
    destruct (cache !! (i, node, ext, count)) as [res|] eqn:Hl;
      cbn [fst snd] in *.
    + done.
    + split; [|apply lookup_insert_eq].
      assert (Hdrop' : drop (i + 1) steps = rest)
        by (by rewrite <-drop_drop, Hdrop).
      etrans.
      { apply (dfs_cached_fold_grows rest i
                 (moves iter_set step node ext count) None cache); [|done].
        intros node' ext' count' cache' Hc'. split.
        - by apply dfs_cached_correct.
        - by apply IH. }
      rewrite Hres.
      replace (dfs_from iter_set (step :: rest) node ext count)
        with (dfs iter_set steps i node ext count)
        by (unfold dfs; by rewrite Hdrop).
      apply cache_extend.
      apply (dfs_cached_fold iter_set steps rest i); [|done].
      intros node' ext' count' cache' Hc'. by apply dfs_cached_correct.
Qed.

Lemma dfs_cached_hit (rest : list (string * string)) (i : nat)
    (node : string) (ext : extmap) (count : nat) (cache : memo) res :
  cache !! (i, node, ext, count) = Some res →
  dfs_cached iter_set rest i node ext count cache = (res, cache).
Proof. intros H. destruct rest as [|[inp req_out] rest]; simpl; by rewrite H. Qed.

(** X11: a call of the cached search on a sound cache returns what the search
    returns, keeps every entry of the cache, leaves a sound cache, and the
    same call on the cache it leaves returns the same result and leaves the
    cache as it is. *)
Theorem dfs_cached_twice (i : nat) (node : string) (ext : extmap) (count : nat)
    (cache : memo) :
  cache_sound iter_set steps cache →
  let run := dfs_cached iter_set (drop i steps) i node ext count cache in
  run.1 = dfs iter_set steps i node ext count
  ∧ cache ⊆ run.2
  ∧ cache_sound iter_set steps run.2
  ∧ dfs_cached iter_set (drop i steps) i node ext count run.2 = run.
Proof.
  intros Hc run.
  destruct (dfs_cached_correct iter_set steps (drop i steps) i node ext count
              cache eq_refl Hc) as [Hres Hc'].
  destruct (dfs_cached_grows (drop i steps) i node ext count cache eq_refl Hc)
    as [Hsub Hl].
  fold run in Hres, Hc', Hsub, Hl. split_and!; [done..|].
  rewrite (dfs_cached_hit _ _ _ _ _ _ _ Hl). by destruct run.
Qed.

End CacheGrowth.

(** ** The driver *)

Lemma clean_binary s : binary (clean s).
Proof.
  induction s as [|c s IH]; [done|]. simpl. by case_decide.
Qed.

Lemma clean_id s : binary s → clean s = s.
Proof.
  induction s as [|c s IH]; [done|]. simpl. intros [Hc Hs].
  by rewrite decide_True, IH.
Qed.

Lemma clean_app s1 s2 : clean (s1 +:+ s2) = clean s1 +:+ clean s2.
Proof.
  induction s1 as [|c s1 IH]; [done|].
  change (String c s1 +:+ s2) with (String c (s1 +:+ s2)). simpl.
  case_decide; [|done]. by rewrite IH.
Qed.

Lemma length_clean s : String.length (clean s) ≤ String.length s.
Proof.
  induction s as [|c s IH]; [done|]. simpl. case_decide; simpl; lia.
Qed.

(** X12: what the driver's cleaning leaves has only ['0'] and ['1']; a string
    of ['0'] and ['1'] is left as it is, so cleaning twice is cleaning once;
    the result is no longer than the string, and cleaning a concatenation is
    concatenating the cleaned parts. *)
Theorem clean_spec s :
  binary (clean s)
  ∧ (binary s → clean s = s)
  ∧ clean (clean s) = clean s
  ∧ String.length (clean s) ≤ String.length s
  ∧ ∀ s', clean (s +:+ s') = clean s +:+ clean s'.
Proof.
  split_and!.
  - apply clean_binary.
  - apply clean_id.
  - apply clean_id, clean_binary.
  - apply length_clean.
  - intros s'. apply clean_app.
Qed.

Lemma binary_steps s :
  String.length s `mod` 3 = 0 →
  binary s →
  Forall (λ step, step.1 ∈ ["00"; "01"; "10"; "11"] ∧ step.2 ∈ ["0"; "1"])
    (steps_of s).
Proof.
  revert s.
  apply (string_ind3 (λ s, binary s →
    Forall (λ step, step.1 ∈ ["00"; "01"; "10"; "11"] ∧ step.2 ∈ ["0"; "1"])
      (steps_of s))).
  - intros _. constructor.
  - intros a b c s IH (Ha & Hb & Hc & Hs). rewrite steps_of_cons3.
    constructor; [|by apply IH]. simpl.
    destruct Ha as [[= ->] | [= ->]], Hb as [[= ->] | [= ->]],
      Hc as [[= ->] | [= ->]];
      split; rewrite !elem_of_cons; tauto.
Qed.

(** X13: on a cleaned string every entry of the reported path has one of the
    inputs 00, 01, 10, 11 and one of the outputs 0, 1. *)
Theorem solve_clean iter_set test_str r :
  (∀ X, iter_set X ≡ₚ elements X) →
  solve iter_set (clean test_str) = Solved r →
  Forall (λ e, pe_inp e ∈ ["00"; "01"; "10"; "11"] ∧ pe_out e ∈ ["0"; "1"])
    (best_path r).
Proof.
  intros Hit (Hlen & Hstart & res & Hres & -> & _)%solve_Solved; [|done].
  simpl.
  destruct (dfs_from_sound iter_set Hit _ _ _ _ _ Hres) as [Hc _].
  destruct (completion_replay _ _ _ _ _ _ _ Hc ext_fresh_empty (r_et res))
    as (_ & Hout & Hinp); [done|by eapply completion_ext|].
  pose proof (binary_steps _ Hlen (clean_binary test_str)) as Hall.
  apply Forall_lookup. intros i e Hi.
  assert (Hs : ∃ step, steps_of (clean test_str) !! i = Some step
                       ∧ step.1 = pe_inp e ∧ step.2 = pe_out e).
  { assert (H1 : (steps_of (clean test_str)).*1 !! i = Some (pe_inp e))
      by (by rewrite <-Hinp, list_lookup_fmap, Hi).
    assert (H2 : (steps_of (clean test_str)).*2 !! i = Some (pe_out e))
      by (by rewrite <-Hout, list_lookup_fmap, Hi).
    rewrite list_lookup_fmap in H1, H2.
    destruct (steps_of (clean test_str) !! i) as [step|]; [|done].
    exists step. simpl in *. by simplify_eq. }
  destruct Hs as (step & Hstep & <- & <-).
  by apply (Forall_lookup_1 _ _ _ _ Hall Hstep).
Qed.

(** ** The report *)

Lemma string_app_nil_r s : s +:+ "" = s.
Proof.
  induction s as [|c s IH]; [done|].
  change (String c s +:+ "") with (String c (s +:+ "")). by rewrite IH.
Qed.

Lemma last_of_app s1 s2 : s2 ≠ "" → last_of (s1 +:+ s2) = last_of s2.
Proof.
  intros Hne. induction s1 as [|c s1 IH]; [done|].
  change (String c s1 +:+ s2) with (String c (s1 +:+ s2)).
  destruct (s1 +:+ s2) as [|c' s'] eqn:Happ.
  - destruct s1; [by simpl in Happ|done].
  - by rewrite <-IH.
Qed.

Lemma pretty_N_go_last x s : s ≠ "" → last_of (pretty_N_go x s) = last_of s.
Proof.
  revert s. induction (N.lt_wf_0 x) as [x _ IH]; intros s Hs.
  destruct (decide (x = 0)%N) as [->|Hx]; [by rewrite pretty_N_go_0|].
  rewrite pretty_N_go_step by lia. rewrite IH; [|apply N.div_lt; lia|done].
  by destruct s.
Qed.

Lemma pretty_N_char_digit x : digit (String (pretty_N_char x) "").
Proof.
  unfold digit, pretty_N_char. rewrite !elem_of_cons.
  repeat case_match; tauto.
Qed.

Lemma pretty_nat_last (n : nat) : digit (last_of (pretty n)).
Proof.
  unfold pretty, pretty_nat, pretty, pretty_N.
  case_decide; [unfold digit; rewrite !elem_of_cons; tauto|].
  rewrite pretty_N_go_step by lia. rewrite pretty_N_go_last by done.
  apply pretty_N_char_digit.
Qed.

Lemma digit_not_paren s : digit s → s ≠ ")".
Proof.
  unfold digit. rewrite !elem_of_cons, elem_of_nil. intros H ->.
  repeat destruct H as [H|H]; done.
Qed.

Lemma digit_nonempty s : digit (last_of s) → s ≠ "".
Proof.
  intros H ->. simpl in H. unfold digit in H.
  rewrite !elem_of_cons, elem_of_nil in H.
  repeat destruct H as [H|H]; done.
Qed.

Lemma known_last count node : known count node → digit (last_of node).
Proof.
  intros [H|(j & _ & ->)].
  - apply elem_of_INITIAL_NODES in H as [-> | [-> | [-> | ->]]];
      unfold digit; simpl; rewrite !elem_of_cons; tauto.
  - unfold new_node_label. rewrite last_of_app; [apply pretty_nat_last|].
    apply digit_nonempty, pretty_nat_last.
Qed.

Lemma string_app_nonempty s1 s2 : s2 ≠ "" → s1 +:+ s2 ≠ "".
Proof. intros H. destruct s1; [done|]. by intros [=]. Qed.

Lemma string_app_nonempty_l s1 s2 : s1 ≠ "" → s1 +:+ s2 ≠ "".
Proof. intros H. by destruct s1. Qed.

Lemma render_entry_last e :
  digit (last_of (pe_dest e)) →
  last_of (render_entry e) = ")" ↔ pe_extra e = true.
Proof.
  intros Hd. unfold render_entry.
  assert (Hlast : ∀ a b, last_of (a +:+ ")--> " +:+ b) = last_of (")--> " +:+ b)).
  { intros a b. by apply last_of_app. }
  rewrite last_of_app by (by do 4 apply string_app_nonempty).
  rewrite last_of_app by (by do 3 apply string_app_nonempty).
  rewrite last_of_app by (by do 2 apply string_app_nonempty).
  rewrite last_of_app by (by apply string_app_nonempty).
  rewrite Hlast.
  rewrite last_of_app by (apply string_app_nonempty_l; by eapply digit_nonempty).
  unfold transition_type. destruct (pe_extra e).
  - rewrite last_of_app by (by destruct (pe_new e)).
    by destruct (pe_new e).
  - rewrite string_app_nil_r. split; [|done].
    intros H. by apply digit_not_paren in Hd.
Qed.

Lemma header_last prefix (n : nat) : last_of (prefix +:+ pretty n) ≠ ")".
Proof.
  rewrite last_of_app by (apply digit_nonempty, pretty_nat_last).
  apply digit_not_paren, pretty_nat_last.
Qed.

Lemma render_report_tags r count :
  Forall (λ e, known count (pe_dest e)) (best_path r) →
  length (filter (λ line, last_of line = ")") (render_report r))
  = added_transitions (best_path r).
Proof.
  intros Hall. unfold render_report.
  rewrite filter_app, length_app.
  rewrite !filter_cons, filter_nil.
  rewrite !decide_False by (first [apply header_last|done]).
  simpl. unfold added_transitions.
  induction Hall as [|e path He _ IH]; [done|].
  rewrite fmap_cons, !filter_cons.
  pose proof (render_entry_last e (known_last _ _ He)) as Hiff.
  destruct (decide (pe_extra e = true)) as [Hx|Hx].
  - rewrite decide_True by (by apply Hiff). simpl. by rewrite IH.
  - rewrite decide_False by (by rewrite Hiff). done.
Qed.

(** X14: the printed report has four lines and then one line for each step;
    the line of a path entry ends with a closing parenthesis exactly when
    the entry is tagged extra, and the lines that end so are as many as the
    printed Extra Path. *)
Theorem solve_render iter_set binary_string r :
  (∀ X, iter_set X ≡ₚ elements X) →
  solve iter_set binary_string = Solved r →
  length (render_report r) = 4 + String.length binary_string / 3
  ∧ (∀ i e, best_path r !! i = Some e →
       render_report r !! (4 + i) = Some (render_entry e)
       ∧ (last_of (render_entry e) = ")" ↔ pe_extra e = true))
  ∧ length (filter (λ line, last_of line = ")") (render_report r))
    = extra_path r.
Proof.
  intros Hit Hs.
  pose proof Hs as (_ & Hstart & res & Hres & Hr & _)%solve_Solved; [|done].
  destruct (dfs_from_sound iter_set Hit _ _ _ _ _ Hres) as [Hc _].
  destruct (completion_known _ _ _ _ _ _ _ Hc (nodes_known_start _ Hstart))
    as [_ Hk].
  replace (r_path res) with (best_path r) in Hk by (by rewrite Hr).
  pose proof (completion_length _ _ _ _ _ _ _ Hc) as Hlen.
  rewrite length_steps_of in Hlen.
  assert (Hpath : best_path r = r_path res) by (by rewrite Hr).
  assert (Hxp : extra_path r = added_transitions (best_path r))
    by (by rewrite Hr).
  split_and!.
  - unfold render_report. rewrite length_app, length_fmap, Hpath, Hlen. done.
  - intros i e Hi. split.
    + unfold render_report. rewrite lookup_app_r by (simpl; lia).
      simpl. replace (i - 0) with i by lia.
      by rewrite list_lookup_fmap, Hi.
    + apply render_entry_last.
      apply (Forall_lookup_1 _ _ _ _ Hk) in Hi as [_ Hd].
      by eapply known_last.
  - rewrite Hxp. apply (render_report_tags r (r_new res)).
    eapply Forall_impl; [exact Hk|]. by intros e [_ ?].
Qed.

(** * Worked instances of the further properties *)

Example main_runs iter_set :
  (∀ X, iter_set X ≡ₚ elements X) →
  Forall (λ o, ∃ r, o = Solved r ∧ length (best_path r) = 8) (main iter_set).
Proof.
  intros Hit. unfold main, test_strs. rewrite Forall_fmap.
  repeat constructor; simpl;
    match goal with
    | |- ∃ r, solve _ ?s = Solved r ∧ _ =>
      destruct (solve_total iter_set Hit s eq_refl) as [r Hr]; exists r;
        split; [done|];
        pose proof Hr as (_ & _ & res & Hres & -> & _)%solve_Solved; [|done];
        destruct (dfs_from_sound iter_set Hit _ _ _ _ _ Hres) as [Hc _];
        simpl; by rewrite (completion_length _ _ _ _ _ _ _ Hc)
    end.
Qed.

Lemma steps_of_join_witness :
  String.length "000010" `mod` 3 = 0
  ∧ join_steps (steps_of "000010") = "000010"
  ∧ Forall (λ step, String.length step.1 = 2 ∧ String.length step.2 = 1)
      (steps_of "000010").
Proof. split; [reflexivity|]. apply steps_of_join. reflexivity. Defined.

Lemma steps_of_join_steps_witness :
  Forall (λ step, String.length step.1 = 2 ∧ String.length step.2 = 1)
    [("00", "0"); ("01", "0")]
  ∧ steps_of (join_steps [("00", "0"); ("01", "0")]) = [("00", "0"); ("01", "0")].
Proof.
  assert (H : Forall (λ step, String.length step.1 = 2 ∧ String.length step.2 = 1)
                [("00", "0"); ("01", "0")])
    by (repeat constructor).
  split; [exact H|]. exact (steps_of_join_steps _ H).
Defined.

Lemma dfs_from_existing_witness :
  ext_fresh ∅
  ∧ extended_lookup ∅ "S0" "01" = Some ("S1", "1")
  ∧ dfs_from ascending [("01", "0")] "S0" ∅ 0 =
    if decide ("1" = "0")
    then candidate_of 0 (PathEntry "S0" "01" "0" "S1" false false)
           <$> dfs_from ascending [] "S1" ∅ 0
    else None.
Proof.
  split; [exact ext_fresh_empty|]. split; [reflexivity|].
  apply dfs_from_existing; [exact ext_fresh_empty|reflexivity].
Defined.

Lemma solve_extra_transitions_witness :
  (∀ X, ascending X ≡ₚ elements X)
  ∧ solve ascending "000010" = Solved example_report
  ∧ size (extra_transitions_used example_report) = extra_path example_report
  ∧ ∀ key t, extra_transitions_used example_report !! key = Some t ↔
      ∃ e, e ∈ best_path example_report ∧ pe_extra e = true
        ∧ key = (pe_from e, pe_inp e) ∧ t = (pe_dest e, pe_out e).
Proof.
  split; [exact ascending_enumerates|]. split; [reflexivity|].
  apply (solve_extra_transitions ascending "000010" example_report);
    [exact ascending_enumerates|reflexivity].
Defined.

Lemma solve_cost_zero_witness :
  (∀ X, ascending X ≡ₚ elements X)
  ∧ solve ascending "011"
    = Solved (Report 0 0 0 [PathEntry "S0" "01" "1" "S1" false false] ∅ "S0")
  ∧ (0 = 0 ↔
     ∃ start run, start ∈ INITIAL_NODES
       ∧ replay ∅ start (steps_of "011").*1 = Some run
       ∧ run.*2 = (steps_of "011").*2)
  ∧ (0 = 0 → 0 = 0 ∧ 0 = 0 ∧ (∅ : extmap) = ∅).
Proof.
  split; [exact ascending_enumerates|]. split; [reflexivity|].
  apply (solve_cost_zero ascending "011"
           (Report 0 0 0 [PathEntry "S0" "01" "1" "S1" false false] ∅ "S0"));
    [exact ascending_enumerates|reflexivity].
Defined.

Lemma solve_bounds_witness :
  (∀ X, ascending X ≡ₚ elements X)
  ∧ solve ascending "000010" = Solved example_report
  ∧ extra_node example_report ≤ extra_path example_report
  ∧ extra_path example_report ≤ String.length "000010" / 3
  ∧ extra_cost example_report ≤ 2 * (String.length "000010" / 3).
Proof.
  split; [exact ascending_enumerates|]. split; [reflexivity|].
  apply (solve_bounds ascending "000010" example_report);
    [exact ascending_enumerates|reflexivity].
Defined.


Lemma solve_path_function_witness :
  (∀ X, ascending X ≡ₚ elements X)
  ∧ solve ascending "000010" = Solved example_report
  ∧ (∀ e, e ∈ best_path example_report →
       extended_lookup (extra_transitions_used example_report)
         (pe_from e) (pe_inp e)
       = Some (pe_dest e, pe_out e))
  ∧ ∀ e1 e2, e1 ∈ best_path example_report → e2 ∈ best_path example_report →
      pe_from e1 = pe_from e2 → pe_inp e1 = pe_inp e2 →
      pe_dest e1 = pe_dest e2 ∧ pe_out e1 = pe_out e2.
Proof.
  split; [exact ascending_enumerates|]. split; [reflexivity|].
  apply (solve_path_function ascending "000010" example_report);
    [exact ascending_enumerates|reflexivity].
Defined.

Lemma solve_path_tags_witness :
  (∀ X, ascending X ≡ₚ elements X)
  ∧ solve ascending "000010" = Solved example_report
  ∧ best_path example_report !! 1
    = Some (PathEntry "S2" "01" "0" "S0" true false)
  ∧ defined_lookup "S2" "01" = None
  ∧ ∀ j e', j < 1 → best_path example_report !! j = Some e' →
      (pe_from e', pe_inp e') ≠ ("S2", "01").
Proof.
  split; [exact ascending_enumerates|]. split; [reflexivity|].
  split; [reflexivity|].
  apply (solve_path_tags ascending "000010" example_report 1
           (PathEntry "S2" "01" "0" "S0" true false));
    [exact ascending_enumerates|reflexivity|reflexivity].
Defined.

Lemma visited_branching_witness :
  (∀ X, ascending X ≡ₚ elements X)
  ∧ visited ascending (steps_of "000010") (("00", "0") :: [("01", "0")]) "S0" ∅ 0
  ∧ available_nodes ∅
    = INITIAL_NODES ∪ list_to_set (new_node_label <$> seq 0 0)
  ∧ length (moves ascending ("00", "0") "S0" ∅ 0) =
    match extended_lookup ∅ "S0" "00" with
    | Some (_, out) => if decide (out = "0") then 1 else 0
    | None => 5 + 0
    end.
Proof.
  assert (H : visited ascending (steps_of "000010")
                (("00", "0") :: [("01", "0")]) "S0" ∅ 0).
  { apply (visited_start ascending (steps_of "000010") "S0").
    apply (list_elem_of_lookup_2 _ 0). reflexivity. }
  split; [exact ascending_enumerates|]. split; [exact H|].
  exact (visited_branching ascending _ _ _ _ _ _ _ ascending_enumerates H).
Defined.

Lemma dfs_cached_twice_witness :
  cache_sound ascending (steps_of "000") ∅
  ∧ let run := dfs_cached ascending (drop 0 (steps_of "000")) 0 "S0" ∅ 0 ∅ in
    run.1 = dfs ascending (steps_of "000") 0 "S0" ∅ 0
    ∧ ∅ ⊆ run.2
    ∧ cache_sound ascending (steps_of "000") run.2
    ∧ dfs_cached ascending (drop 0 (steps_of "000")) 0 "S0" ∅ 0 run.2 = run.
Proof.
  split; [apply cache_sound_empty|].
  apply (dfs_cached_twice ascending (steps_of "000") 0 "S0" ∅ 0 ∅).
  apply cache_sound_empty.
Defined.

Lemma clean_spec_witness :
  binary "000010"
  ∧ clean "000_010" = "000010"
  ∧ clean "000010" = "000010".
Proof.
  split; [repeat split; (by left) || (by right)|]. split; [reflexivity|].
  apply (proj1 (proj2 (clean_spec "000010"))).
  repeat split; (by left) || (by right).
Defined.

Lemma solve_clean_witness :
  (∀ X, ascending X ≡ₚ elements X)
  ∧ solve ascending (clean "000_010") = Solved example_report
  ∧ Forall (λ e, pe_inp e ∈ ["00"; "01"; "10"; "11"] ∧ pe_out e ∈ ["0"; "1"])
      (best_path example_report).
Proof.
  split; [exact ascending_enumerates|]. split; [reflexivity|].
  apply (solve_clean ascending "000_010" example_report);
    [exact ascending_enumerates|reflexivity].
Defined.

Lemma solve_render_witness :
  (∀ X, ascending X ≡ₚ elements X)
  ∧ solve ascending "000010" = Solved example_report
  ∧ render_report example_report
    = [ "Extra Cost = 2"; "Extra Path = 2"; "Extra Node = 0"; "Path:";
        "S0 --(00/0)--> S2 (extra)"; "S2 --(01/0)--> S0 (extra)" ]
  ∧ length (render_report example_report) = 4 + String.length "000010" / 3
  ∧ (∀ i e, best_path example_report !! i = Some e →
       render_report example_report !! (4 + i) = Some (render_entry e)
       ∧ (last_of (render_entry e) = ")" ↔ pe_extra e = true))
  ∧ length (filter (λ line, last_of line = ")") (render_report example_report))
    = extra_path example_report.
Proof.
  split; [exact ascending_enumerates|]. split; [reflexivity|].
  split; [reflexivity|].
  apply (solve_render ascending "000010" example_report);
    [exact ascending_enumerates|reflexivity].
Defined.

Lemma solve_prefix_cost_witness :
  (∀ X, ascending X ≡ₚ elements X)
  ∧ String.length "000" `mod` 3 = 0
  ∧ ∃ r1, solve ascending "000" = Solved r1
      ∧ solve ascending ("000" +:+ "010") = Solved example_report
      ∧ extra_cost r1 ≤ extra_cost example_report.
Proof.
  split; [exact ascending_enumerates|]. split; [reflexivity|].
  eexists. split; [reflexivity|]. split; [reflexivity|].
  eapply (solve_prefix_cost ascending "000" "010");
    [exact ascending_enumerates|reflexivity|reflexivity|reflexivity].
Defined.
